(** * store/tikv/scan.go: the range-scan iterator over a sharded, versioned store

    A shallow embedding of [Scanner] and of its methods [Valid], [Key],
    [Value], [Next], [Close], [startTS], [resolveCurrentLock] and [getData],
    followed by the properties of the iterator.

    The Scanner talks to the region cache, the RPC client, the backoffer,
    the snapshot's point read and the lock extractor.  None of them is part
    of scan.go: they are the fields of the classes [ExternalTypes] and
    [Collaborators], and every call threads the state they own
    ([Backoffer] and [World]) explicitly.  Both loops of the file are
    [for { ... }] loops without a bound of their own, so their models take a
    number of iterations to run; [OutOfFuel] is the answer of a loop that was
    still running when that number was reached. *)

From Stdlib Require Import ZArith List Lia Bool String.
From Stdlib Require Import Strings.Byte Sorting.Sorted.
From stdpp Require Import base option list sorting.

Local Open Scope Z_scope.

(** ** Package kv: keys *)

Module kv.

(** [kv.Key] is a [[]byte]; a nil slice and an empty slice both have
    length 0 and are both the empty list here. *)
Definition Key : Type := list byte.

(** Modelled from the spec: [kv.Key.Next] lives in kv/key.go, which is not
    part of the sources at hand; the spec describes it as the immediate
    lexicographic successor of the key, obtained by appending a zero byte. *)
Definition Next (k : Key) : Key := k ++ [x00].

(** Byte-wise comparison of two keys, as [bytes.Compare] orders them. *)
Definition byte_cmp (a b : byte) : comparison :=
  N.compare (Byte.to_N a) (Byte.to_N b).

Definition cmp (a b : Key) : comparison := list_compare byte_cmp a b.

Definition lt (a b : Key) : Prop := cmp a b = Lt.
Definition le (a b : Key) : Prop := cmp a b <> Gt.

Definition ltb (a b : Key) : bool :=
  match cmp a b with Lt => true | _ => false end.
Definition leb (a b : Key) : bool :=
  match cmp a b with Gt => false | _ => true end.

End kv.

(** ** What a call can do *)

Inductive result (A : Type) : Type :=
| Returns (a : A)   (* the call returns [a] *)
| Panics            (* the Go runtime panics: index out of range *)
| OutOfFuel.        (* the loop was still running after the given number of iterations *)

Arguments Returns {A} a.
Arguments Panics {A}.
Arguments OutOfFuel {A}.

(** ** The types scan.go takes from other packages *)

Class ExternalTypes : Type := {
  (** everything the store owns outside the Scanner: region cache, RPC
      client, the data of the cluster, the safe point *)
  World : Type;
  (** the state of a [*Backoffer] *)
  Backoffer : Type;
  (** non-nil values of Go's [error]; a nil error is [None] *)
  error : Type;
  (** [pb.KeyError], the per-key conflict marker of a scan response *)
  KeyError : Type;
  (** [errorpb.Error], a region error *)
  errorpb_Error : Type;
  (** [RegionVerID], the identifier of a region *)
  RegionVerID : Type;
  (** [kv.IsoLevel] and its protobuf counterpart *)
  IsoLevel : Type;
  pbIsoLevel : Type;
  (** [pb.CommandPri] *)
  CommandPri : Type;
  (** [backoffType], the category of a backoff *)
  backoffType : Type;
}.

Module pb.
Section Messages.
Context `{ExternalTypes}.

(** [pb.KvPair]: [Error] is a pointer, nil when the pair is a plain value. *)
Record KvPair : Type := mkKvPair {
  Error : option KeyError;
  Key : kv.Key;
  Value : list byte;
}.

(** [pb.ScanRequest] *)
Record ScanRequest : Type := mkScanRequest {
  StartKey : kv.Key;
  Limit : Z;      (* uint32 *)
  Version : Z;    (* uint64 *)
}.

(** [pb.Context], the fields scan.go fills in *)
Record Context : Type := mkContext {
  IsolationLevel : pbIsoLevel;
  Priority : CommandPri;
  NotFillCache : bool;
}.

(** [pb.ScanResponse] *)
Record ScanResponse : Type := mkScanResponse {
  RegionError : option errorpb_Error;
  Pairs : list KvPair;
}.
End Messages.
End pb.

Module tikvrpc.
Section Request.
Context `{ExternalTypes}.

Inductive CmdType : Type := CmdScan.

Record Request : Type := mkRequest {
  Type_ : CmdType;
  Scan : pb.ScanRequest;
  Context : pb.Context;
}.

(** [tikvrpc.Response]; [resp_Scan] is the field [Scan], nil when the
    response has no scan body. *)
Record Response : Type := mkResponse {
  resp_Type : CmdType;
  resp_Scan : option pb.ScanResponse;
}.
End Request.
End tikvrpc.

Section Types.
Context `{ExternalTypes}.

(** [KeyLocation]: a region and its key range; an empty [EndKey] is the
    end of the keyspace. *)
Record KeyLocation : Type := mkKeyLocation {
  Region : RegionVerID;
  StartKey : kv.Key;
  EndKey : kv.Key;
}.

(** [Lock]: of the lock descriptor the Scanner reads the key only. *)
Record Lock : Type := mkLock {
  lock_Key : kv.Key;
}.

(** [tikvSnapshot]: [store] is a pointer to state shared with everybody
    else, which is the [World]; the other fields are read only. *)
Record tikvSnapshot : Type := mkSnapshot {
  version : Z;    (* version.Ver, uint64 *)
  isolationLevel : IsoLevel;
  priority : CommandPri;
  notFillCache : bool;
}.

(** [Scanner].  [idx] is a Go [int] that is only reset to 0 or
    incremented while it is below or at [len(cache)], so it never wraps
    and is a natural number here.  [cache] is a slice of pointers to the
    pairs of the last response, which nobody else holds: writing through
    [cache[idx]] is an update of the list at [idx]. *)
Record Scanner : Type := mkScanner {
  snapshot : tikvSnapshot;
  batchSize : Z;
  valid : bool;
  cache : list pb.KvPair;
  idx : nat;
  nextStartKey : kv.Key;
  eof : bool;
}.
End Types.

(** ** The functions scan.go calls in other files *)

Class Collaborators `{ExternalTypes} : Type := {
  (** constants *)
  scanBatchSize : Z;
  scannerNextMaxBackoff : Z;
  ReadTimeoutMedium : Z;
  BoRegionMiss : backoffType;
  ErrBodyMissing : error;
  (** [errors.New] *)
  errors_New : string -> error;
  (** [kv.IsErrNotFound], which also takes a nil error *)
  IsErrNotFound : option error -> bool;
  (** [NewBackoffer(context.Background(), maxSleep)] *)
  NewBackoffer : Z -> Backoffer;
  (** [bo.Backoff(typ, err)] sleeps, or fails once the budget is spent *)
  Backoff : backoffType -> error -> Backoffer -> World ->
            option error * Backoffer * World;
  (** [regionCache.LocateKey(bo, key)] *)
  LocateKey : kv.Key -> Backoffer -> World ->
              (error + KeyLocation) * Backoffer * World;
  (** [sender.SendReq(bo, req, regionID, timeout)] *)
  SendReq : tikvrpc.Request -> RegionVerID -> Z -> Backoffer -> World ->
            (error + tikvrpc.Response) * Backoffer * World;
  (** [resp.GetRegionError()] returns a region error and an error *)
  GetRegionError : tikvrpc.Response -> option errorpb_Error * option error;
  (** [regionErr.String()] *)
  RegionError_String : errorpb_Error -> string;
  (** [store.CheckVisibility(startTS)] reads the safe point *)
  CheckVisibility : Z -> World -> option error;
  (** [extractLockFromKeyErr(keyErr)] *)
  extractLockFromKeyErr : KeyError -> error + Lock;
  (** [snapshot.get(bo, key)], the point read at the snapshot's version *)
  snapshot_get : tikvSnapshot -> kv.Key -> Backoffer -> World ->
                 (error + list byte) * Backoffer * World;
  (** [pbIsolationLevel] *)
  pbIsolationLevel : IsoLevel -> pbIsoLevel;
}.

(** [errors.Trace] records the place of the call in the error and keeps its
    cause; a nil error stays nil.  An error is identified with its cause. *)
Definition Trace {E : Type} (err : option E) : option E := err.

(** ** The Scanner *)

Section Scanner.
Context `{C : Collaborators}.

Definition set_valid (s : Scanner) (b : bool) : Scanner :=
  mkScanner (snapshot s) (batchSize s) b (cache s) (idx s)
            (nextStartKey s) (eof s).
Definition set_cache (s : Scanner) (c : list pb.KvPair) : Scanner :=
  mkScanner (snapshot s) (batchSize s) (valid s) c (idx s)
            (nextStartKey s) (eof s).
Definition set_idx (s : Scanner) (i : nat) : Scanner :=
  mkScanner (snapshot s) (batchSize s) (valid s) (cache s) i
            (nextStartKey s) (eof s).
Definition set_nextStartKey (s : Scanner) (k : kv.Key) : Scanner :=
  mkScanner (snapshot s) (batchSize s) (valid s) (cache s) (idx s)
            k (eof s).
Definition set_eof (s : Scanner) (b : bool) : Scanner :=
  mkScanner (snapshot s) (batchSize s) (valid s) (cache s) (idx s)
            (nextStartKey s) b.

(** [func (s *Scanner) Valid() bool] *)
Definition Valid (s : Scanner) : bool := valid s.

(** [func (s *Scanner) Key() kv.Key] *)
Definition Key (s : Scanner) : result kv.Key :=
  if valid s then
    match cache s !! idx s with
    | Some kvPair => Returns (pb.Key kvPair)
    | None => Panics
    end
  else Returns [].

(** [func (s *Scanner) Value() []byte] *)
Definition Value (s : Scanner) : result (list byte) :=
  if valid s then
    match cache s !! idx s with
    | Some kvPair => Returns (pb.Value kvPair)
    | None => Panics
    end
  else Returns [].

(** [func (s *Scanner) Close()] *)
Definition Close (s : Scanner) : Scanner := set_valid s false.

(** [func (s *Scanner) startTS() uint64] *)
Definition startTS (s : Scanner) : Z := version (snapshot s).

(** [func (s *Scanner) resolveCurrentLock(bo *Backoffer) error] *)
Definition resolveCurrentLock (s : Scanner) (bo : Backoffer) (w : World)
  : result (option error * Scanner * Backoffer * World) :=
  match cache s !! idx s with
  | None => Panics
  | Some current =>
    match pb.Error current with
    | None => Returns (None, s, bo, w)
    | Some _ =>
      let '(r, bo, w) := snapshot_get (snapshot s) (pb.Key current) bo w in
      match r with
      | inl err => Returns (Trace (Some err), s, bo, w)
      | inr val =>
        let current := pb.mkKvPair None (pb.Key current) val in
        Returns (None, set_cache s (<[idx s := current]> (cache s)), bo, w)
      end
    end
  end.

(** The loop of [getData] over the pairs of a response: a pair that
    carries an error has its lock extracted and its key replaced by the
    lock's key; the first extraction that fails ends the loop. *)
Fixpoint rewriteLockKeys (kvPairs : list pb.KvPair)
  : error + list pb.KvPair :=
  match kvPairs with
  | [] => inr []
  | kvPair :: rest =>
    match pb.Error kvPair with
    | Some keyErr =>
      match extractLockFromKeyErr keyErr with
      | inl err => inl err
      | inr lock =>
        match rewriteLockKeys rest with
        | inl err => inl err
        | inr rest' =>
          inr (pb.mkKvPair (pb.Error kvPair) (lock_Key lock) (pb.Value kvPair)
                 :: rest')
        end
      end
    | None =>
      match rewriteLockKeys rest with
      | inl err => inl err
      | inr rest' => inr (kvPair :: rest')
      end
    end
  end.

(** The request [getData] builds; [uint32(s.batchSize)] keeps the low 32
    bits of the batch size. *)
Definition scanRequest (s : Scanner) : tikvrpc.Request :=
  tikvrpc.mkRequest tikvrpc.CmdScan
    (pb.mkScanRequest (nextStartKey s) (batchSize s mod 2 ^ 32) (startTS s))
    (pb.mkContext (pbIsolationLevel (isolationLevel (snapshot s)))
                  (priority (snapshot s))
                  (notFillCache (snapshot s))).

(** Lines 208-225: the pairs become the page, and the start of the next
    page is chosen. *)
Definition install (s : Scanner) (loc : KeyLocation)
           (kvPairs : list pb.KvPair) : result Scanner :=
  let s := set_idx (set_cache s kvPairs) 0 in
  if Z.of_nat (length kvPairs) <? batchSize s then
    let s := set_nextStartKey s (EndKey loc) in
    let s := if (length (EndKey loc) =? 0)%nat then set_eof s true else s in
    Returns s
  else
    match last kvPairs with     (* kvPairs[len(kvPairs)-1] *)
    | None => Panics
    | Some lastPair => Returns (set_nextStartKey s (kv.Next (pb.Key lastPair)))
    end.

(** [func (s *Scanner) getData(bo *Backoffer) error] *)
Fixpoint getData (fuel : nat) (s : Scanner) (bo : Backoffer) (w : World)
  : result (option error * Scanner * Backoffer * World) :=
  match fuel with
  | O => OutOfFuel
  | S fuel =>
    let '(r, bo, w) := LocateKey (nextStartKey s) bo w in
    match r with
    | inl err => Returns (Trace (Some err), s, bo, w)
    | inr loc =>
      let req := scanRequest s in
      let '(r, bo, w) := SendReq req (Region loc) ReadTimeoutMedium bo w in
      match r with
      | inl err => Returns (Trace (Some err), s, bo, w)
      | inr resp =>
        let '(regionErr, err) := GetRegionError resp in
        match err with
        | Some err => Returns (Trace (Some err), s, bo, w)
        | None =>
          match regionErr with
          | Some regionErr =>
            let '(err, bo, w) :=
              Backoff BoRegionMiss
                      (errors_New (RegionError_String regionErr)) bo w in
            match err with
            | Some err => Returns (Trace (Some err), s, bo, w)
            | None => getData fuel s bo w       (* continue *)
            end
          | None =>
            match tikvrpc.resp_Scan resp with
            | None => Returns (Trace (Some ErrBodyMissing), s, bo, w)
            | Some cmdScanResp =>
              match CheckVisibility (startTS s) w with
              | Some err => Returns (Trace (Some err), s, bo, w)
              | None =>
                match rewriteLockKeys (pb.Pairs cmdScanResp) with
                | inl err => Returns (Trace (Some err), s, bo, w)
                | inr kvPairs =>
                  match install s loc kvPairs with
                  | Returns s => Returns (None, s, bo, w)
                  | Panics => Panics
                  | OutOfFuel => OutOfFuel
                  end
                end
              end
            end
          end
        end
      end
    end
  end.

(** Lines 106-116 of [Next]: the cursor is on an entry of the page.
    [continue_] is the next iteration of the loop. *)
Definition Next_entry
           (continue_ : Scanner -> Backoffer -> World ->
                        result (option error * Scanner * World))
           (s : Scanner) (bo : Backoffer) (w : World)
  : result (option error * Scanner * World) :=
  match resolveCurrentLock s bo w with
  | Returns (Some err, s, bo, w) => Returns (Trace (Some err), Close s, w)
  | Returns (None, s, bo, w) =>
    match Value s with
    | Returns v =>
      if (length v =? 0)%nat then continue_ s bo w   (* NotExist: next pair *)
      else Returns (None, s, w)
    | Panics => Panics
    | OutOfFuel => OutOfFuel
    end
  | Panics => Panics
  | OutOfFuel => OutOfFuel
  end.

(** The loop of [Next], lines 85-117.  [retries] bounds the loop of each
    [getData], [fuel] the loop of [Next]. *)
Fixpoint Next_loop (retries fuel : nat) (s : Scanner) (bo : Backoffer)
         (w : World) : result (option error * Scanner * World) :=
  match fuel with
  | O => OutOfFuel
  | S fuel =>
    let s := set_idx s (S (idx s)) in
    if (length (cache s) <=? idx s)%nat then
      if eof s then Returns (None, Close s, w)
      else
        match getData retries s bo w with
        | Returns (Some err, s, bo, w) =>
          Returns (Trace (Some err), Close s, w)
        | Returns (None, s, bo, w) =>
          if (length (cache s) <=? idx s)%nat
          then Next_loop retries fuel s bo w      (* continue *)
          else Next_entry (Next_loop retries fuel) s bo w
        | Panics => Panics
        | OutOfFuel => OutOfFuel
        end
    else Next_entry (Next_loop retries fuel) s bo w
  end.

(** [func (s *Scanner) Next() error] *)
Definition Next (fuel : nat) (s : Scanner) (w : World)
  : result (option error * Scanner * World) :=
  let bo := NewBackoffer scannerNextMaxBackoff in
  if negb (valid s) then
    Returns (Some (errors_New "scanner iterator is invalid"), s, w)
  else Next_loop fuel fuel s bo w.

(** [func newScanner(snapshot, startKey, batchSize)], which returns a Scanner
    and an error *)
Definition newScanner (fuel : nat) (snapshot : tikvSnapshot)
           (startKey : kv.Key) (batchSize : Z) (w : World)
  : result (Scanner * option error * World) :=
  let batchSize := if batchSize <=? 1 then scanBatchSize else batchSize in
  let scanner := mkScanner snapshot batchSize true [] 0%nat startKey false in
  match Next fuel scanner w with
  | Returns (err, scanner, w) =>
    if IsErrNotFound err then Returns (scanner, None, w)
    else Returns (scanner, Trace err, w)
  | Panics => Panics
  | OutOfFuel => OutOfFuel
  end.

End Scanner.

(** ** Driving a Scanner, as a caller does *)

Section Driver.
Context `{C : Collaborators}.

(** The keys a caller reads in the loop
    [for s.Valid() { use(s.Key()); if s.Next() != nil { break } }],
    for at most [calls] rounds. *)
Fixpoint drain (calls fuel : nat) (s : Scanner) (w : World) : list kv.Key :=
  match calls with
  | O => []
  | S calls =>
    if Valid s then
      match Key s with
      | Returns k =>
        k :: match Next fuel s w with
             | Returns (None, s, w) => drain calls fuel s w
             | _ => []
             end
      | _ => []
      end
    else []
  end.

(** The keys read from a fresh Scanner. *)
Definition scan (calls fuel : nat) (snapshot : tikvSnapshot)
           (startKey : kv.Key) (batchSize : Z) (w : World) : list kv.Key :=
  match newScanner fuel snapshot startKey batchSize w with
  | Returns (s, None, w) => drain calls fuel s w
  | _ => []
  end.

(** The key/value pairs read the same way. *)
Fixpoint drain_pairs (calls fuel : nat) (s : Scanner) (w : World)
  : list (kv.Key * list byte) :=
  match calls with
  | O => []
  | S calls =>
    if Valid s then
      match Key s, Value s with
      | Returns k, Returns v =>
        (k, v) :: match Next fuel s w with
                  | Returns (None, s, w) => drain_pairs calls fuel s w
                  | _ => []
                  end
      | _, _ => []
      end
    else []
  end.

(** One call of the cursor interface. *)
Inductive op : Type := OpNext | OpClose | OpKey | OpValue.

Definition run_op (fuel : nat) (o : op) (s : Scanner) (w : World)
  : result (Scanner * World) :=
  match o with
  | OpNext =>
    match Next fuel s w with
    | Returns (_, s, w) => Returns (s, w)
    | Panics => Panics
    | OutOfFuel => OutOfFuel
    end
  | OpClose => Returns (Close s, w)
  | OpKey =>
    match Key s with
    | Returns _ => Returns (s, w)
    | Panics => Panics
    | OutOfFuel => OutOfFuel
    end
  | OpValue =>
    match Value s with
    | Returns _ => Returns (s, w)
    | Panics => Panics
    | OutOfFuel => OutOfFuel
    end
  end.

Fixpoint run_ops (fuel : nat) (os : list op) (s : Scanner) (w : World)
  : result (Scanner * World) :=
  match os with
  | [] => Returns (s, w)
  | o :: os =>
    match run_op fuel o s w with
    | Returns (s, w) => run_ops fuel os s w
    | Panics => Panics
    | OutOfFuel => OutOfFuel
    end
  end.

End Driver.

(** ** What the claims speak about *)

Section Notions.
Context `{C : Collaborators}.

(** The Scanner [newScanner] builds before it advances it. *)
Definition fresh (snapshot : tikvSnapshot) (startKey : kv.Key)
           (batchSize : Z) : Scanner :=
  mkScanner snapshot (if batchSize <=? 1 then scanBatchSize else batchSize)
            true [] 0%nat startKey false.

(** A turn of the loop of [getData] that gets a scan body [body] from the
    region at [loc] and passes the visibility check. *)
Definition receives (s : Scanner) (bo : Backoffer) (w : World)
           (loc : KeyLocation) (body : pb.ScanResponse)
           (bo' : Backoffer) (w' : World) : Prop :=
  exists bo1 w1 resp,
    LocateKey (nextStartKey s) bo w = (inr loc, bo1, w1) /\
    SendReq (scanRequest s) (Region loc) ReadTimeoutMedium bo1 w1
      = (inr resp, bo', w') /\
    GetRegionError resp = (None, None) /\
    tikvrpc.resp_Scan resp = Some body /\
    CheckVisibility (startTS s) w' = None.

(** A turn of the loop of [getData] that gets a region error [regionErr]:
    the state of the collaborators after the response. *)
Definition region_miss (s : Scanner) (bo : Backoffer) (w : World)
           (regionErr : errorpb_Error) (bo' : Backoffer) (w' : World)
  : Prop :=
  exists loc bo1 w1 resp,
    LocateKey (nextStartKey s) bo w = (inr loc, bo1, w1) /\
    SendReq (scanRequest s) (Region loc) ReadTimeoutMedium bo1 w1
      = (inr resp, bo', w') /\
    GetRegionError resp = (Some regionErr, None).

(** A turn that gets a region error and is granted a backoff. *)
Definition retried (s : Scanner) (st st' : Backoffer * World) : Prop :=
  exists regionErr bo1 w1,
    region_miss s st.1 st.2 regionErr bo1 w1 /\
    Backoff BoRegionMiss (errors_New (RegionError_String regionErr)) bo1 w1
      = (None, st'.1, st'.2).

(** [n] such turns in a row. *)
Inductive retries (s : Scanner)
  : nat -> Backoffer * World -> Backoffer * World -> Prop :=
| retries_O st : retries s O st st
| retries_S n st st1 st2 :
    retried s st st1 -> retries s n st1 st2 -> retries s (S n) st st2.

(** A turn whose request fails in the transport. *)
Definition transport_fails (s : Scanner) (bo : Backoffer) (w : World)
           (err : error) (bo' : Backoffer) (w' : World) : Prop :=
  exists loc bo1 w1,
    LocateKey (nextStartKey s) bo w = (inr loc, bo1, w1) /\
    SendReq (scanRequest s) (Region loc) ReadTimeoutMedium bo1 w1
      = (inl err, bo', w').

(** What the loop over the pairs of a response makes of a pair. *)
Definition rewritten (p q : pb.KvPair) : Prop :=
  match pb.Error p with
  | Some keyErr =>
    exists lock,
      extractLockFromKeyErr keyErr = inr lock /\
      q = pb.mkKvPair (pb.Error p) (lock_Key lock) (pb.Value p)
  | None => q = p
  end.

(** The lock of a pair that carries a conflict marker can be extracted. *)
Definition extractable (p : pb.KvPair) : Prop :=
  forall keyErr, pb.Error p = Some keyErr ->
                 exists lock, extractLockFromKeyErr keyErr = inr lock.

(** The lock of a pair that carries a conflict marker names the key of
    the pair. *)
Definition lock_on_own_key (p : pb.KvPair) : Prop :=
  forall keyErr lock,
    pb.Error p = Some keyErr -> extractLockFromKeyErr keyErr = inr lock ->
    lock_Key lock = pb.Key p.

(** What the pairs of a page look like to the cursor: the keys are in
    strictly increasing order, none is below the start key of the scan,
    and when the region has an end, the start key and all the keys are
    below it. *)
Definition page_ok (startKey : kv.Key) (loc : KeyLocation)
           (keys : list kv.Key) : Prop :=
  StronglySorted kv.lt keys /\
  Forall (kv.le startKey) keys /\
  (EndKey loc <> [] ->
   kv.lt startKey (EndKey loc) /\
   Forall (fun k => kv.lt k (EndKey loc)) keys).

(** The store answers every scan with the keys of the region from the
    start key on, in order. *)
Definition scanned_in_order : Prop :=
  forall s bo w loc body bo' w',
    receives s bo w loc body bo' w' ->
    page_ok (nextStartKey s) loc (pb.Key <$> pb.Pairs body).

(** The same of the pages as [getData] installs them, that is after the
    keys of the locked pairs were replaced by the keys of their locks. *)
Definition installed_in_order : Prop :=
  forall s bo w loc body bo' w' kvPairs,
    receives s bo w loc body bo' w' ->
    rewriteLockKeys (pb.Pairs body) = inr kvPairs ->
    page_ok (nextStartKey s) loc (pb.Key <$> kvPairs).

(** The keys of the page. *)
Definition keys (s : Scanner) : list kv.Key := pb.Key <$> cache s.

(** The page is in order and, unless the data has ended, ends before the
    start of the next page. *)
Definition page_before_next (s : Scanner) : Prop :=
  StronglySorted kv.lt (keys s) /\
  (eof s = false -> Forall (fun k => kv.lt k (nextStartKey s)) (keys s)).

(** [k] is above the key read last, if any. *)
Definition above (lo : option kv.Key) (k : kv.Key) : Prop :=
  match lo with
  | Some l => kv.lt l k
  | None => True
  end.

(** Everything the cursor can still reach, the page from [from] on and
    the pages to come, is above the key read last. *)
Definition ahead (lo : option kv.Key) (s : Scanner) (from : nat) : Prop :=
  page_before_next s /\
  Forall (above lo) (drop from (keys s)) /\
  (eof s = false -> above lo (nextStartKey s)).

(** What a successful advance lands on: a key above the key read last,
    in a page that is in order. *)
Definition lands (lo : option kv.Key) (s' : Scanner) : Prop :=
  exists key,
    Key s' = Returns key /\ above lo key /\ page_before_next s'.

(** Every run of successful advances of a fresh Scanner reads strictly
    increasing keys. *)
Definition keys_increase : Prop :=
  forall calls fuel snapshot startKey batchSize w,
    StronglySorted kv.lt (scan calls fuel snapshot startKey batchSize w).

(** No key is read twice. *)
Definition keys_unique : Prop :=
  forall calls fuel snapshot startKey batchSize w,
    NoDup (scan calls fuel snapshot startKey batchSize w).

End Notions.

(** ** A small cluster to run the Scanner against *)

Module Cluster.

Inductive key_error : Type :=
| Locked (key : kv.Key)        (* the key is locked by another transaction *)
| Retryable (msg : string).    (* not a lock: extraction fails *)

Inductive backoff_type : Type :=
| boTiKVRPC | BoTxnLock | boPDRPC | BoRegionMiss_ | boServerBusy.

(** What the next request meets on its way. *)
Inductive fault : Type :=
| RegionMiss (msg : string)    (* the region answers with a region error *)
| SendFails (msg : string)     (* the transport fails *)
| NoBody                       (* the response has no scan body *)
| ReadFails (msg : string).    (* the next point read fails *)

#[export] Instance types : ExternalTypes := {|
  World := list fault;
  Backoffer := nat;
  error := string;
  KeyError := key_error;
  errorpb_Error := string;
  RegionVerID := nat;
  IsoLevel := unit;
  pbIsoLevel := unit;
  CommandPri := unit;
  backoffType := backoff_type;
|}.

(** The data of the cluster: the pairs a scan returns, in key order, the
    committed values a point read returns, and the keys at which the
    keyspace is split into regions. *)
Record store : Type := mkStore {
  pairs : list pb.KvPair;
  committed : list (kv.Key * list byte);
  splits : list kv.Key;
  safePoint : Z;
}.

Fixpoint locate (start : kv.Key) (id : nat) (splits : list kv.Key)
         (k : kv.Key) : KeyLocation :=
  match splits with
  | [] => mkKeyLocation id start []
  | m :: rest =>
    if kv.ltb k m then mkKeyLocation id start m
    else locate m (S id) rest k
  end.

Definition in_range (k : kv.Key) (endKey : kv.Key) (p : pb.KvPair) : bool :=
  kv.leb k (pb.Key p)
  && (match endKey with [] => true | _ => kv.ltb (pb.Key p) endKey end).

Definition serve (st : store) (k : kv.Key) (limit : Z) : list pb.KvPair :=
  let loc := locate [] 0%nat (splits st) k in
  take (Z.to_nat limit) (filter (fun p => in_range k (EndKey loc) p = true) (pairs st)).

Fixpoint point_read (tbl : list (kv.Key * list byte)) (k : kv.Key)
  : list byte :=
  match tbl with
  | [] => []
  | (k', v) :: tbl =>
    match kv.cmp k k' with Eq => v | _ => point_read tbl k end
  end.

Definition send (st : store) (req : tikvrpc.Request) (region : nat)
           (timeout : Z) (bo : nat) (w : list fault)
  : (string + tikvrpc.Response) * nat * list fault :=
  match w with
  | RegionMiss msg :: w =>
    (inr (tikvrpc.mkResponse tikvrpc.CmdScan
            (Some (pb.mkScanResponse (Some msg) []))), bo, w)
  | SendFails msg :: w => (inl msg, bo, w)
  | NoBody :: w => (inr (tikvrpc.mkResponse tikvrpc.CmdScan None), bo, w)
  | _ =>
    let scanReq := tikvrpc.Scan req in
    (inr (tikvrpc.mkResponse tikvrpc.CmdScan
            (Some (pb.mkScanResponse None
                     (serve st (pb.StartKey scanReq) (pb.Limit scanReq))))),
     bo, w)
  end.

Definition read (st : store) (snap : tikvSnapshot) (k : kv.Key)
           (bo : nat) (w : list fault)
  : (string + list byte) * nat * list fault :=
  match w with
  | ReadFails msg :: w => (inl msg, bo, w)
  | _ => (inr (point_read (committed st) k), bo, w)
  end.

Definition region_error (resp : tikvrpc.Response)
  : option string * option string :=
  match tikvrpc.resp_Scan resp with
  | Some body => (pb.RegionError body, None)
  | None => (None, None)
  end.

Definition extract (keyErr : key_error) : string + Lock :=
  match keyErr with
  | Locked key => inr (mkLock key)
  | Retryable msg => inl msg
  end.

(** The collaborators of a Scanner over the store [st].  A backoffer is
    the number of backoffs it still grants. *)
Definition env (st : store) : Collaborators := {|
  scanBatchSize := 256;
  scannerNextMaxBackoff := 3;
  ReadTimeoutMedium := 60;
  BoRegionMiss := BoRegionMiss_;
  ErrBodyMissing := "body missing"%string;
  errors_New := fun msg => msg;
  IsErrNotFound := fun err =>
    match err with
    | Some msg => String.eqb msg "not exist"
    | None => false
    end;
  NewBackoffer := Z.to_nat;
  Backoff := fun typ err bo w =>
    match bo with
    | O => (Some "backoffer.maxSleep is exceeded"%string, bo, w)
    | S bo => (None, bo, w)
    end;
  LocateKey := fun k bo w => (inr (locate [] 0%nat (splits st) k), bo, w);
  SendReq := send st;
  GetRegionError := region_error;
  RegionError_String := fun e => e;
  CheckVisibility := fun ts w =>
    if ts <? safePoint st
    then Some "start timestamp fall behind safe point"%string
    else None;
  extractLockFromKeyErr := extract;
  snapshot_get := read st;
  pbIsolationLevel := fun l => l;
|}.

Definition snap (ver : Z) : tikvSnapshot := mkSnapshot ver tt tt false.

(** Keys [a] to [e] at version 10, split into two regions at [c]: [c] is
    deleted, [d] is locked and reads as [D2]. *)
Definition a : kv.Key := [x61].
Definition b : kv.Key := [x62].
Definition c : kv.Key := [x63].
Definition d : kv.Key := [x64].
Definition e : kv.Key := [x65].
Definition D2 : list byte := [x44; x32].

Definition letters : store := {|
  pairs := [ pb.mkKvPair None a [x41];
             pb.mkKvPair None b [x42];
             pb.mkKvPair None c [];
             pb.mkKvPair (Some (Locked d)) d [];
             pb.mkKvPair None e [x45] ];
  committed := [ (a, [x41]); (b, [x42]); (d, D2); (e, [x45]) ];
  splits := [ c ];
  safePoint := 5;
|}.

(** The same store, except that the lock met at [b] names the key [a]. *)
Definition crossed : store := {|
  pairs := [ pb.mkKvPair None a [x41];
             pb.mkKvPair (Some (Locked a)) b [] ];
  committed := [ (a, [x41]); (b, [x42]) ];
  splits := [];
  safePoint := 5;
|}.

(** A Scanner over version 10 with pages of [n] pairs that has used up
    its page and fetches next from [k]. *)
Definition due (k : kv.Key) (n : Z) : Scanner :=
  mkScanner (snap 10) n true [] 1%nat k false.

(** A Scanner on [b], the last entry of the page that holds [a] and [b]. *)
Definition on_b : Scanner :=
  mkScanner (snap 10) 3 true (take 2 (pairs letters)) 1%nat c false.

(** A Scanner on [c], the first entry of the page that holds [c], [d]
    and [e]; [d], under index 1, is locked. *)
Definition on_c : Scanner :=
  mkScanner (snap 10) 3 true (drop 2 (pairs letters)) 0%nat (e ++ [x00]) false.
Definition on_d : Scanner :=
  mkScanner (snap 10) 3 true (drop 2 (pairs letters)) 1%nat (e ++ [x00]) false.

(** A Scanner that was closed. *)
Definition closed : Scanner :=
  mkScanner (snap 10) 3 false (take 2 (pairs letters)) 1%nat c false.

(** A store whose pair at [b] carries a marker that is not a lock. *)
Definition restarting : store := {|
  pairs := [ pb.mkKvPair None a [x41];
             pb.mkKvPair (Some (Retryable "restart")) b [] ];
  committed := [ (a, [x41]); (b, [x42]) ];
  splits := [];
  safePoint := 5;
|}.

End Cluster.

(** ** Further notions: what a caller observes *)

Section Observations.
Context `{C : Collaborators}.

(** The key/value pairs read from a fresh Scanner. *)
Definition scan_pairs (calls fuel : nat) (snapshot : tikvSnapshot)
           (startKey : kv.Key) (batchSize : Z) (w : World)
  : list (kv.Key * list byte) :=
  match newScanner fuel snapshot startKey batchSize w with
  | Returns (s, None, w) => drain_pairs calls fuel s w
  | _ => []
  end.

(** The Scanner is closed, or on an entry whose value is not empty. *)
Definition live (s : Scanner) : Prop :=
  Valid s = false \/ exists v, Value s = Returns v /\ v <> [].

(** The cursor is on an entry of the page. *)
Definition in_page (s : Scanner) : Prop :=
  (idx s < length (cache s))%nat.

(** Nothing the cursor can still reach, in the page from [from] on or in
    the pages to come, is below [lo]. *)
Definition reach (lo : kv.Key) (s : Scanner) (from : nat) : Prop :=
  Forall (kv.le lo) (drop from (keys s)) /\
  (eof s = false -> kv.le lo (nextStartKey s)).

(** The entry at [i] is a plain pair with an empty value: a deleted key. *)
Definition tombstone_at (s : Scanner) (i : nat) : Prop :=
  exists p, cache s !! i = Some p /\ pb.Error p = None /\ pb.Value p = [].

(** The entry at [i] is a plain pair with a value. *)
Definition value_at (s : Scanner) (i : nat) : Prop :=
  exists p, cache s !! i = Some p /\ pb.Error p = None /\ pb.Value p <> [].

End Observations.

(** * Properties *)

(** ** The order of keys *)

Section KeyOrder.

Lemma byte_cmp_eq (x y : byte) : kv.byte_cmp x y = Eq <-> x = y.
Proof.
  unfold kv.byte_cmp. rewrite N.compare_eq_iff. split; [|congruence].
  intros Heq. pose proof (Byte.of_to_N x) as Hx.
  rewrite Heq, Byte.of_to_N in Hx. congruence.
Qed.

Lemma byte_cmp_opp (x y : byte) :
  kv.byte_cmp y x = CompOpp (kv.byte_cmp x y).
Proof. unfold kv.byte_cmp. apply N.compare_antisym. Qed.

Lemma byte_cmp_trans (x y z : byte) (c : comparison) :
  kv.byte_cmp x y = c -> kv.byte_cmp y z = c -> kv.byte_cmp x z = c.
Proof.
  unfold kv.byte_cmp. destruct c.
  - rewrite !N.compare_eq_iff. congruence.
  - rewrite !N.compare_lt_iff. lia.
  - rewrite !N.compare_gt_iff. lia.
Qed.

Lemma cmp_eq (a b : kv.Key) : kv.cmp a b = Eq <-> a = b.
Proof. apply list_compare_refl, byte_cmp_eq. Qed.

Lemma cmp_opp (a b : kv.Key) : kv.cmp b a = CompOpp (kv.cmp a b).
Proof. apply list_compare_antisym; [apply byte_cmp_eq | apply byte_cmp_opp]. Qed.

Lemma cmp_trans (a b c : kv.Key) (r : comparison) :
  kv.cmp a b = r -> kv.cmp b c = r -> kv.cmp a c = r.
Proof.
  apply list_compare_trans;
    [apply byte_cmp_eq | apply byte_cmp_trans | apply byte_cmp_opp].
Qed.

Lemma lt_irrefl (a : kv.Key) : ~ kv.lt a a.
Proof.
  unfold kv.lt. intros Hlt.
  assert (kv.cmp a a = Eq) as Heq by (apply cmp_eq; reflexivity).
  congruence.
Qed.

Lemma lt_trans (a b c : kv.Key) : kv.lt a b -> kv.lt b c -> kv.lt a c.
Proof. apply cmp_trans. Qed.

Lemma le_refl (a : kv.Key) : kv.le a a.
Proof.
  unfold kv.le. assert (kv.cmp a a = Eq) as -> by (apply cmp_eq; reflexivity).
  discriminate.
Qed.

Lemma lt_le (a b : kv.Key) : kv.lt a b -> kv.le a b.
Proof. unfold kv.lt, kv.le. congruence. Qed.

Lemma le_cases (a b : kv.Key) : kv.le a b -> a = b \/ kv.lt a b.
Proof.
  unfold kv.le, kv.lt. destruct (kv.cmp a b) eqn:Hc; intros Hle.
  - left. apply cmp_eq, Hc.
  - right. reflexivity.
  - congruence.
Qed.

Lemma lt_le_trans (a b c : kv.Key) : kv.lt a b -> kv.le b c -> kv.lt a c.
Proof.
  intros Hab [-> | Hbc]%le_cases; [assumption | eapply lt_trans; eassumption].
Qed.

Lemma le_lt_trans (a b c : kv.Key) : kv.le a b -> kv.lt b c -> kv.lt a c.
Proof.
  intros [-> | Hab]%le_cases Hbc; [assumption | eapply lt_trans; eassumption].
Qed.

Lemma ltb_lt (a b : kv.Key) : kv.ltb a b = true <-> kv.lt a b.
Proof.
  unfold kv.ltb, kv.lt. destruct (kv.cmp a b); split; congruence.
Qed.

Lemma leb_le (a b : kv.Key) : kv.leb a b = true <-> kv.le a b.
Proof.
  unfold kv.leb, kv.le. destruct (kv.cmp a b); split; congruence.
Qed.

(** The key with a zero byte appended comes right after the key: it is
    above it, and no key lies strictly between the two. *)
Lemma lt_Next (k : kv.Key) : kv.lt k (kv.Next k).
Proof.
  unfold kv.lt, kv.cmp, kv.Next. induction k as [|x k IH]; [reflexivity|].
  simpl. assert (kv.byte_cmp x x = Eq) as -> by (apply byte_cmp_eq; reflexivity).
  exact IH.
Qed.

Lemma Next_least (k k' : kv.Key) : kv.lt k k' -> kv.le (kv.Next k) k'.
Proof.
  unfold kv.lt, kv.le, kv.cmp, kv.Next. revert k'.
  induction k as [|x k IH]; intros [|y k']; simpl; try discriminate.
  - intros _. destruct y; simpl; destruct k'; discriminate.
  - destruct (kv.byte_cmp x y); try discriminate. apply IH.
Qed.

Lemma sorted_NoDup (l : list kv.Key) : StronglySorted kv.lt l -> NoDup l.
Proof.
  induction 1 as [|k l Hs IH Hall]; constructor; [|exact IH].
  intros Hin. rewrite Forall_forall in Hall.
  exact (lt_irrefl k (Hall k Hin)).
Qed.

End KeyOrder.

(** ** Construction and closing *)

Section Lifecycle.
Context `{C : Collaborators}.

Lemma newScanner_fresh fuel snapshot startKey batchSize w :
  newScanner fuel snapshot startKey batchSize w =
  match Next fuel (fresh snapshot startKey batchSize) w with
  | Returns (err, scanner, w) =>
    if IsErrNotFound err then Returns (scanner, None, w)
    else Returns (scanner, err, w)
  | Panics => Panics
  | OutOfFuel => OutOfFuel
  end.
Proof. reflexivity. Qed.

Lemma fresh_normalized snapshot startKey batchSize :
  batchSize <= 1 ->
  fresh snapshot startKey batchSize = fresh snapshot startKey scanBatchSize.
Proof.
  intros Hle. unfold fresh.
  destruct (Z.leb_spec batchSize 1); [|lia].
  destruct (scanBatchSize <=? 1); reflexivity.
Qed.

(** C8.  A Scanner built with a page size of 0 or of 1 is the Scanner
    built with the default page size [scanBatchSize]: construction
    returns the same Scanner, the same error and leaves the store in the
    same state, so that every later call behaves the same. *)
Theorem page_size_normalization fuel snapshot startKey w :
  newScanner fuel snapshot startKey 0 w
    = newScanner fuel snapshot startKey scanBatchSize w
  /\ newScanner fuel snapshot startKey 1 w
    = newScanner fuel snapshot startKey scanBatchSize w.
Proof.
  rewrite !newScanner_fresh.
  rewrite (fresh_normalized snapshot startKey 0) by lia.
  rewrite (fresh_normalized snapshot startKey 1) by lia.
  split; reflexivity.
Qed.

Lemma Close_invalid (s : Scanner) : valid s = false -> Close s = s.
Proof. destruct s; simpl; intros ->; reflexivity. Qed.

Lemma Next_invalid fuel s w :
  valid s = false ->
  Next fuel s w
  = Returns (Some (errors_New "scanner iterator is invalid"), s, w).
Proof. unfold Next. intros ->. reflexivity. Qed.

Lemma run_op_invalid fuel o s w :
  valid s = false -> run_op fuel o s w = Returns (s, w).
Proof.
  intros Hv. destruct o; simpl.
  - rewrite Next_invalid by assumption. reflexivity.
  - rewrite Close_invalid by assumption. reflexivity.
  - unfold Key. rewrite Hv. reflexivity.
  - unfold Value. rewrite Hv. reflexivity.
Qed.

Lemma run_ops_invalid fuel os s w :
  valid s = false -> run_ops fuel os s w = Returns (s, w).
Proof.
  intros Hv. induction os as [|o os IH]; simpl; [reflexivity|].
  rewrite run_op_invalid by assumption. exact IH.
Qed.

(** C9.  Once [Valid()] is false it stays false whatever is called next:
    [Next] fails with the error of an invalid iterator and leaves the
    Scanner as it is, [Key()] and [Value()] return the empty slice,
    [Close] keeps the Scanner invalid, and after any sequence of [Next],
    [Close], [Key] and [Value] the Scanner is the same invalid Scanner. *)
Theorem exhaustion_is_terminal fuel s w :
  Valid s = false ->
  Next fuel s w
    = Returns (Some (errors_New "scanner iterator is invalid"), s, w)
  /\ Key s = Returns []
  /\ Value s = Returns []
  /\ Valid (Close s) = false
  /\ forall os, exists s' w',
       run_ops fuel os s w = Returns (s', w') /\ Valid s' = false.
Proof.
  unfold Valid. intros Hv. split; [apply Next_invalid, Hv|].
  unfold Key, Value. rewrite Hv. repeat split.
  intros os. exists s, w. split; [apply run_ops_invalid, Hv | exact Hv].
Qed.

End Lifecycle.

(** ** Fetching a page *)

Section Fetch.
Context `{C : Collaborators}.

Lemma getData_error_keeps fuel : forall s bo w err s' bo' w',
  getData fuel s bo w = Returns (Some err, s', bo', w') -> s' = s.
Proof.
  induction fuel as [|fuel IH]; intros s bo w err s' bo' w' Hget;
    simpl in Hget; [discriminate|].
  unfold Trace in Hget.
  repeat case_match; simplify_eq; eauto.
Qed.

(** C10.  A page fetch that fails, for whatever reason, leaves the
    Scanner as it found it: the page, the cursor, the start key of the
    next page and the end-of-data flag are those of before the call. *)
Theorem fetch_is_atomic fuel s bo w err s' bo' w' :
  getData fuel s bo w = Returns (Some err, s', bo', w') ->
  s' = s
  /\ cache s' = cache s /\ idx s' = idx s
  /\ nextStartKey s' = nextStartKey s /\ eof s' = eof s.
Proof.
  intros Hget. apply getData_error_keeps in Hget. subst s'.
  repeat split.
Qed.

Lemma getData_receives fuel s bo w loc body bo' w' :
  receives s bo w loc body bo' w' ->
  getData (S fuel) s bo w =
  match rewriteLockKeys (pb.Pairs body) with
  | inl err => Returns (Some err, s, bo', w')
  | inr kvPairs =>
    match install s loc kvPairs with
    | Returns s' => Returns (None, s', bo', w')
    | Panics => Panics
    | OutOfFuel => OutOfFuel
    end
  end.
Proof.
  intros (bo1 & w1 & resp & Hloc & Hsend & Hre & Hbody & Hvis).
  simpl. rewrite Hloc, Hsend, Hre, Hbody, Hvis. reflexivity.
Qed.

Lemma rewriteLockKeys_rewritten kvPairs : forall kvPairs',
  rewriteLockKeys kvPairs = inr kvPairs' ->
  Forall2 rewritten kvPairs kvPairs'.
Proof.
  induction kvPairs as [|p rest IH]; intros kvPairs' Hrw; simpl in Hrw.
  - simplify_eq. constructor.
  - destruct (pb.Error p) as [keyErr|] eqn:Herr.
    + destruct (extractLockFromKeyErr keyErr) as [err|lock] eqn:Hex;
        [discriminate|].
      destruct (rewriteLockKeys rest) as [err|rest']; [discriminate|].
      simplify_eq. constructor; [|apply IH; reflexivity].
      unfold rewritten. rewrite Herr. exists lock. split; [exact Hex|].
      reflexivity.
    + destruct (rewriteLockKeys rest) as [err|rest']; [discriminate|].
      simplify_eq. constructor; [|apply IH; reflexivity].
      unfold rewritten. rewrite Herr. reflexivity.
Qed.

Lemma rewriteLockKeys_length kvPairs kvPairs' :
  rewriteLockKeys kvPairs = inr kvPairs' ->
  length kvPairs' = length kvPairs.
Proof.
  intros Hrw%rewriteLockKeys_rewritten. symmetry.
  eapply Forall2_length, Hrw.
Qed.

Lemma rewriteLockKeys_extractable kvPairs :
  Forall extractable kvPairs ->
  exists kvPairs', rewriteLockKeys kvPairs = inr kvPairs'.
Proof.
  induction 1 as [|p rest Hp Hrest [rest' IH]]; simpl; [eauto|].
  rewrite IH. destruct (pb.Error p) as [keyErr|] eqn:Herr; [|eauto].
  destruct (Hp keyErr Herr) as [lock ->]. eauto.
Qed.

Lemma rewriteLockKeys_fails kvPairs p keyErr err :
  p ∈ kvPairs -> pb.Error p = Some keyErr ->
  extractLockFromKeyErr keyErr = inl err ->
  exists err' p' keyErr',
    rewriteLockKeys kvPairs = inl err' /\ p' ∈ kvPairs /\
    pb.Error p' = Some keyErr' /\ extractLockFromKeyErr keyErr' = inl err'.
Proof.
  intros Hin Herr Hex. induction kvPairs as [|q rest IH];
    [apply elem_of_nil in Hin; contradiction|].
  apply elem_of_cons in Hin. simpl.
  destruct (pb.Error q) as [ke|] eqn:Hq.
  - destruct (extractLockFromKeyErr ke) as [e|lock] eqn:He.
    + exists e, q, ke. repeat split; [left|exact Hq|exact He].
    + destruct Hin as [->|Hin]; [congruence|].
      destruct (IH Hin) as (err' & p' & ke' & -> & Hin' & Hp' & He').
      exists err', p', ke'. repeat split; [right; exact Hin'|exact Hp'|exact He'].
  - destruct Hin as [->|Hin]; [congruence|].
    destruct (IH Hin) as (err' & p' & ke' & -> & Hin' & Hp' & He').
    exists err', p', ke'. repeat split; [right; exact Hin'|exact Hp'|exact He'].
Qed.

Lemma rewriteLockKeys_same_keys kvPairs : forall kvPairs',
  Forall lock_on_own_key kvPairs ->
  rewriteLockKeys kvPairs = inr kvPairs' ->
  pb.Key <$> kvPairs' = pb.Key <$> kvPairs.
Proof.
  induction kvPairs as [|p rest IH]; intros kvPairs' Hown Hrw;
    simpl in Hrw.
  - simplify_eq. reflexivity.
  - apply Forall_cons in Hown as [Hp Hrest].
    destruct (pb.Error p) as [keyErr|] eqn:Herr.
    + destruct (extractLockFromKeyErr keyErr) as [err|lock] eqn:Hex;
        [discriminate|].
      destruct (rewriteLockKeys rest) as [err|rest'] eqn:Hrec;
        [discriminate|].
      simplify_eq. simpl. rewrite (Hp keyErr lock Herr Hex).
      f_equal. apply IH; [exact Hrest|reflexivity].
    + destruct (rewriteLockKeys rest) as [err|rest'] eqn:Hrec;
        [discriminate|].
      simplify_eq. simpl. f_equal. apply IH; [exact Hrest|reflexivity].
Qed.

Lemma install_positive s loc kvPairs :
  0 < batchSize s -> exists s', install s loc kvPairs = Returns s'.
Proof.
  intros Hpos. unfold install. simpl.
  destruct (Z.ltb_spec (Z.of_nat (length kvPairs)) (batchSize s)); [eauto|].
  destruct kvPairs as [|p rest _] using rev_ind; [simpl in *; lia|].
  rewrite last_snoc. eauto.
Qed.

Lemma install_cache s loc kvPairs s' :
  install s loc kvPairs = Returns s' ->
  cache s' = kvPairs /\ idx s' = 0%nat /\
  snapshot s' = snapshot s /\ batchSize s' = batchSize s /\
  valid s' = valid s.
Proof.
  unfold install. simpl. intros Hin.
  repeat case_match; simplify_eq; repeat split.
Qed.

(** C2.  When a turn of the fetch loop receives a scan body, every pair
    of it that carries a conflict marker has its lock extracted and its
    key replaced by the key of the lock, and the pairs are installed as
    the page in that form; the other pairs are installed as they came.
    When the lock of some pair cannot be extracted the fetch fails with
    the error of an extraction, and the Scanner keeps its page. *)
Theorem lock_keys_overwrite fuel s bo w loc body bo' w' :
  receives s bo w loc body bo' w' ->
  (Forall extractable (pb.Pairs body) -> 0 < batchSize s ->
   exists s',
     getData (S fuel) s bo w = Returns (None, s', bo', w') /\
     Forall2 rewritten (pb.Pairs body) (cache s'))
  /\
  (forall p keyErr err,
     p ∈ pb.Pairs body -> pb.Error p = Some keyErr ->
     extractLockFromKeyErr keyErr = inl err ->
     exists err' p' keyErr',
       getData (S fuel) s bo w = Returns (Some err', s, bo', w') /\
       p' ∈ pb.Pairs body /\ pb.Error p' = Some keyErr' /\
       extractLockFromKeyErr keyErr' = inl err').
Proof.
  intros Hrecv. rewrite (getData_receives fuel _ _ _ _ _ _ _ Hrecv). split.
  - intros [kvPairs Hrw]%rewriteLockKeys_extractable Hpos.
    rewrite Hrw.
    destruct (install_positive s loc kvPairs Hpos) as [s' Hin].
    rewrite Hin. exists s'. split; [reflexivity|].
    apply install_cache in Hin as [-> _].
    apply rewriteLockKeys_rewritten, Hrw.
  - intros p keyErr err Hin Herr Hex.
    destruct (rewriteLockKeys_fails _ _ _ _ Hin Herr Hex)
      as (err' & p' & ke' & -> & Hin' & Hp' & He').
    exists err', p', ke'. repeat split; assumption.
Qed.

(** C3.  After a fetch that succeeds the cursor is at the start of the
    new page.  When fewer pairs came back than the page size, the next
    page starts at the end key of the region, and the end-of-data flag is
    raised when that end key is empty and left alone when it is not.
    When the page is full, the next page starts at the last key of the
    page with a zero byte appended, which is the least key above it, and
    the end-of-data flag is left alone. *)
Theorem next_page_start fuel s bo w loc body bo' w' s1 bo1 w1 :
  receives s bo w loc body bo' w' ->
  getData (S fuel) s bo w = Returns (None, s1, bo1, w1) ->
  idx s1 = 0%nat
  /\ length (cache s1) = length (pb.Pairs body)
  /\ (Z.of_nat (length (pb.Pairs body)) < batchSize s ->
      nextStartKey s1 = EndKey loc
      /\ (EndKey loc = [] -> eof s1 = true)
      /\ (EndKey loc <> [] -> eof s1 = eof s))
  /\ (batchSize s <= Z.of_nat (length (pb.Pairs body)) ->
      exists lastPair,
        last (cache s1) = Some lastPair
        /\ nextStartKey s1 = pb.Key lastPair ++ [x00]
        /\ eof s1 = eof s
        /\ kv.lt (pb.Key lastPair) (nextStartKey s1)
        /\ forall k, kv.lt (pb.Key lastPair) k -> kv.le (nextStartKey s1) k).
Proof.
  intros Hrecv Hget.
  rewrite (getData_receives fuel _ _ _ _ _ _ _ Hrecv) in Hget.
  destruct (rewriteLockKeys (pb.Pairs body)) as [err|kvPairs] eqn:Hrw;
    [discriminate|].
  apply rewriteLockKeys_length in Hrw. rewrite <- Hrw.
  destruct (install s loc kvPairs) as [s2| |] eqn:Hin; try discriminate.
  simplify_eq. pose proof (install_cache _ _ _ _ Hin) as (Hc & Hi & _).
  rewrite Hc. split; [exact Hi|]. split; [reflexivity|].
  unfold install in Hin. simpl in Hin.
  destruct (Z.ltb_spec (Z.of_nat (length kvPairs)) (batchSize s)).
  - split; [|lia]. intros _. injection Hin as Hin. rewrite <- Hin.
    destruct (EndKey loc) as [|x k]; simpl;
      (split; [reflexivity|]; split; intros ?; congruence).
  - split; [lia|]. intros _.
    destruct (last kvPairs) as [lastPair|]; [|discriminate].
    injection Hin as Hin. rewrite <- Hin.
    exists lastPair. simpl. repeat split.
    + apply lt_Next.
    + apply Next_least.
Qed.

Lemma getData_retried fuel s st st' :
  retried s st st' ->
  getData (S fuel) s st.1 st.2 = getData fuel s st'.1 st'.2.
Proof.
  intros (regionErr & bo1 & w1 & Hmiss & Hbo).
  destruct Hmiss as (loc & bo0 & w0 & resp & Hloc & Hsend & Hre).
  simpl. rewrite Hloc, Hsend, Hre, Hbo. reflexivity.
Qed.

Lemma getData_retries fuel s n st st' :
  retries s n st st' ->
  getData (n + fuel) s st.1 st.2 = getData fuel s st'.1 st'.2.
Proof.
  induction 1 as [st|n st st1 st2 Hstep Hrest IH]; [reflexivity|].
  change (S n + fuel)%nat with (S (n + fuel)).
  rewrite (getData_retried _ _ _ _ Hstep). exact IH.
Qed.

Lemma getData_one_more fuel : forall s bo w r,
  getData fuel s bo w = Returns r -> getData (S fuel) s bo w = Returns r.
Proof.
  induction fuel as [|fuel IH]; intros s bo w r Hget; [discriminate|].
  remember (S fuel) as n eqn:Hn. simpl.
  rewrite Hn in Hget. simpl in Hget.
  repeat case_match; simplify_eq; try reflexivity; try discriminate.
  apply IH. assumption.
Qed.

Lemma getData_more_fuel fuel k s bo w r :
  getData fuel s bo w = Returns r ->
  getData (fuel + k) s bo w = Returns r.
Proof.
  intros Hget. induction k as [|k IH].
  - rewrite Nat.add_0_r. exact Hget.
  - rewrite Nat.add_succ_r. apply getData_one_more, IH.
Qed.

Lemma getData_after_retries fuel s n bo w bo_n w_n r :
  retries s n (bo, w) (bo_n, w_n) -> (n < fuel)%nat ->
  getData 1 s bo_n w_n = Returns r ->
  getData fuel s bo w = Returns r.
Proof.
  intros Hret Hlt Hone.
  replace fuel with (n + (1 + (fuel - n - 1)))%nat by lia.
  rewrite (getData_retries _ _ _ _ _ Hret). simpl fst. simpl snd.
  apply getData_more_fuel, Hone.
Qed.

Lemma getData_budget_exhausted s bo w regionErr bo1 w1 err bo' w' :
  region_miss s bo w regionErr bo1 w1 ->
  Backoff BoRegionMiss (errors_New (RegionError_String regionErr)) bo1 w1
    = (Some err, bo', w') ->
  getData 1 s bo w = Returns (Some err, s, bo', w').
Proof.
  intros (loc & bo0 & w0 & resp & Hloc & Hsend & Hre) Hbo.
  simpl. rewrite Hloc, Hsend, Hre, Hbo. reflexivity.
Qed.

Lemma getData_transport_fails s bo w err bo' w' :
  transport_fails s bo w err bo' w' ->
  getData 1 s bo w = Returns (Some err, s, bo', w').
Proof.
  intros (loc & bo0 & w0 & Hloc & Hsend).
  simpl. rewrite Hloc, Hsend. reflexivity.
Qed.

Lemma Next_fetch_fails fuel s w err s' bo' w' :
  valid s = true -> (length (cache s) <= S (idx s))%nat -> eof s = false ->
  getData fuel (set_idx s (S (idx s)))
          (NewBackoffer scannerNextMaxBackoff) w
    = Returns (Some err, s', bo', w') ->
  Next fuel s w = Returns (Some err, Close s', w').
Proof.
  intros Hv Hlen Heof Hget. unfold Next. rewrite Hv. simpl.
  destruct fuel as [|fuel]; [discriminate|].
  remember (S fuel) as n. rewrite Heqn at 2. simpl.
  destruct (Nat.leb_spec (length (cache s)) (S (idx s))); [|lia].
  rewrite Heof, Hget. reflexivity.
Qed.

(** C6.  A turn of the fetch loop that gets a region error asks the
    backoffer for one backoff of the kind [BoRegionMiss].  After [n]
    turns that were granted their backoff:
    - a turn that gets a page without any error gives the fetch the very
      result of that error-free fetch;
    - a turn that gets another region error and is refused the backoff
      makes the fetch fail with the error of the backoffer;
    - a turn whose request fails in the transport makes the fetch fail
      with that error at once;
    and a fetch that fails inside [Next] closes the Scanner. *)
Theorem routing_miss_recovery fuel s n bo w bo_n w_n :
  retries s n (bo, w) (bo_n, w_n) -> (n < fuel)%nat ->
  (forall s' bo' w',
     getData 1 s bo_n w_n = Returns (None, s', bo', w') ->
     getData fuel s bo w = Returns (None, s', bo', w'))
  /\
  (forall regionErr bo1 w1 err bo' w',
     region_miss s bo_n w_n regionErr bo1 w1 ->
     Backoff BoRegionMiss (errors_New (RegionError_String regionErr)) bo1 w1
       = (Some err, bo', w') ->
     getData fuel s bo w = Returns (Some err, s, bo', w'))
  /\
  (forall err bo' w',
     transport_fails s bo_n w_n err bo' w' ->
     getData fuel s bo w = Returns (Some err, s, bo', w'))
  /\
  (forall s0 err bo' w',
     valid s0 = true -> (length (cache s0) <= S (idx s0))%nat ->
     eof s0 = false ->
     s = set_idx s0 (S (idx s0)) ->
     bo = NewBackoffer scannerNextMaxBackoff ->
     getData fuel s bo w = Returns (Some err, s, bo', w') ->
     Next fuel s0 w = Returns (Some err, Close s, w')
     /\ Valid (Close s) = false).
Proof.
  intros Hret Hlt. repeat split.
  - intros s' bo' w' Hone. eapply getData_after_retries; eassumption.
  - intros regionErr bo1 w1 err bo' w' Hmiss Hbo.
    eapply getData_after_retries; [eassumption..|].
    eapply getData_budget_exhausted; eassumption.
  - intros err bo' w' Hfail.
    eapply getData_after_retries; [eassumption..|].
    apply getData_transport_fails, Hfail.
  - subst s bo. eapply Next_fetch_fails; eassumption.
Qed.

End Fetch.

(** ** Advancing the cursor *)

Section Advance.
Context `{C : Collaborators}.

Lemma resolveCurrentLock_marker s bo w current keyErr :
  cache s !! idx s = Some current -> pb.Error current = Some keyErr ->
  resolveCurrentLock s bo w =
  let '(r, bo, w) := snapshot_get (snapshot s) (pb.Key current) bo w in
  match r with
  | inl err => Returns (Some err, s, bo, w)
  | inr val =>
    Returns (None,
             set_cache s (<[idx s := pb.mkKvPair None (pb.Key current) val]>
                            (cache s)), bo, w)
  end.
Proof. intros Hcur Herr. unfold resolveCurrentLock. rewrite Hcur, Herr. reflexivity. Qed.

(** C5.  Resolving the entry under the cursor when it carries a conflict
    marker reads the key of the entry through the point read of the
    Scanner's snapshot.  When the read returns a value, that value
    becomes the value of the entry and the marker is cleared, the key and
    all other entries staying as they are, so that [Value()] is the value
    the point read returned; when the read fails, its error is returned
    and the Scanner is not changed. *)
Theorem conflict_resolution s bo w current keyErr :
  cache s !! idx s = Some current -> pb.Error current = Some keyErr ->
  (forall val bo' w',
     snapshot_get (snapshot s) (pb.Key current) bo w = (inr val, bo', w') ->
     exists s',
       resolveCurrentLock s bo w = Returns (None, s', bo', w')
       /\ cache s' !! idx s' = Some (pb.mkKvPair None (pb.Key current) val)
       /\ (forall i, i <> idx s -> cache s' !! i = cache s !! i)
       /\ idx s' = idx s /\ snapshot s' = snapshot s
       /\ (valid s = true ->
           Value s' = Returns val /\ Key s' = Returns (pb.Key current)))
  /\
  (forall err bo' w',
     snapshot_get (snapshot s) (pb.Key current) bo w = (inl err, bo', w') ->
     resolveCurrentLock s bo w = Returns (Some err, s, bo', w')).
Proof.
  intros Hcur Herr.
  rewrite (resolveCurrentLock_marker s bo w current keyErr Hcur Herr).
  split.
  - intros val bo' w' ->. eexists. split; [reflexivity|]. simpl.
    assert (cache s !! idx s
            = Some current -> (idx s < length (cache s))%nat) as Hlt
        by (intros Hl; eapply lookup_lt_Some, Hl).
    specialize (Hlt Hcur).
    split; [apply list_lookup_insert_eq, Hlt|].
    split; [intros i Hne; apply list_lookup_insert_ne; congruence|].
    split; [reflexivity|]. split; [reflexivity|].
    intros Hv. unfold Value, Key. simpl. rewrite Hv.
    rewrite list_lookup_insert_eq by exact Hlt. split; reflexivity.
  - intros err bo' w' ->. reflexivity.
Qed.

(** How the loop of [Next] can end with a result. *)
Lemma Next_entry_exits (P : option error * Scanner * World -> Prop) k :
  (forall e s w, valid s = false -> P (e, s, w)) ->
  (forall s w v, Value s = Returns v -> v <> [] -> P (None, s, w)) ->
  (forall s bo w r, k s bo w = Returns r -> P r) ->
  forall s bo w r, Next_entry k s bo w = Returns r -> P r.
Proof.
  intros Hclosed Hlands Hk s bo w r Hent. unfold Next_entry in Hent.
  destruct (resolveCurrentLock s bo w) as [[[[[err|] s1] bo1] w1]| |];
    try discriminate.
  - simplify_eq. apply Hclosed. reflexivity.
  - destruct (Value s1) as [v| |] eqn:Hv; try discriminate.
    destruct v as [|x v]; simpl in Hent.
    + eapply Hk, Hent.
    + simplify_eq. eapply Hlands; [exact Hv|discriminate].
Qed.

Lemma Next_loop_exits (P : option error * Scanner * World -> Prop) g :
  (forall e s w, valid s = false -> P (e, s, w)) ->
  (forall s w v, Value s = Returns v -> v <> [] -> P (None, s, w)) ->
  forall n s bo w r, Next_loop g n s bo w = Returns r -> P r.
Proof.
  intros Hclosed Hlands. induction n as [|n IH]; intros s bo w r Hloop;
    [discriminate|].
  simpl in Hloop.
  destruct (length (cache s) <=? S (idx s))%nat.
  - destruct (eof s).
    + simplify_eq. apply Hclosed. reflexivity.
    + destruct (getData g _ bo w) as [[[[[err|] s1] bo1] w1]| |];
        try discriminate.
      * simplify_eq. apply Hclosed. reflexivity.
      * destruct (length (cache s1) <=? idx s1)%nat.
        -- eapply IH, Hloop.
        -- eapply Next_entry_exits; [exact Hclosed|exact Hlands|exact IH|].
           exact Hloop.
  - eapply Next_entry_exits; [exact Hclosed|exact Hlands|exact IH|].
    exact Hloop.
Qed.

Lemma Next_skips g n s bo w s1 bo1 w1 :
  (S (idx s) < length (cache s))%nat ->
  resolveCurrentLock (set_idx s (S (idx s))) bo w
    = Returns (None, s1, bo1, w1) ->
  Value s1 = Returns [] ->
  Next_loop g (S n) s bo w = Next_loop g n s1 bo1 w1.
Proof.
  intros Hlt Hres Hval. simpl.
  destruct (Nat.leb_spec (length (cache s)) (S (idx s))); [lia|].
  unfold Next_entry. rewrite Hres, Hval. reflexivity.
Qed.

(** C4.  A [Next] that returns without error leaves the Scanner either
    invalid or on an entry whose value is not empty; and when the entry
    the cursor moves to resolves to an empty value, the loop does not
    return there but goes on from that entry. *)
Theorem tombstones_are_skipped :
  (forall fuel s w s' w',
     Next fuel s w = Returns (None, s', w') ->
     Valid s' = false \/ exists v, Value s' = Returns v /\ v <> [])
  /\
  (forall g n s bo w s1 bo1 w1,
     (S (idx s) < length (cache s))%nat ->
     resolveCurrentLock (set_idx s (S (idx s))) bo w
       = Returns (None, s1, bo1, w1) ->
     Value s1 = Returns [] ->
     Next_loop g (S n) s bo w = Next_loop g n s1 bo1 w1).
Proof.
  split; [|apply Next_skips].
  intros fuel s w s' w' Hnext. unfold Next in Hnext.
  destruct (valid s); simpl in Hnext; [|discriminate].
  apply (Next_loop_exits
           (fun r => match r with
                     | (None, s', _) =>
                       Valid s' = false
                       \/ exists v, Value s' = Returns v /\ v <> []
                     | _ => True
                     end)) in Hnext; [exact Hnext| |].
  - intros [e|] s0 w0 Hv; [exact I|]. left. exact Hv.
  - intros s0 w0 v Hv Hne. right. exists v. split; assumption.
Qed.

Lemma Next_error_closes fuel s w err s' w' :
  valid s = true ->
  Next fuel s w = Returns (Some err, s', w') -> valid s' = false.
Proof.
  intros Hv Hnext. unfold Next in Hnext. rewrite Hv in Hnext.
  simpl in Hnext.
  apply (Next_loop_exits
           (fun r => match r with
                     | (Some _, s', _) => valid s' = false
                     | _ => True
                     end)) in Hnext; [exact Hnext| |].
  - intros [e|] s0 w0 Hv0; [exact Hv0|exact I].
  - intros s0 w0 v _ _. exact I.
Qed.

(** C7.  [newScanner] advances the Scanner it has built once.  When the
    advance fails with an error that [kv.IsErrNotFound] accepts, the
    Scanner is returned without error and is not valid; when it fails
    with another error, the Scanner is returned with that error; when it
    succeeds, the Scanner is returned without error. *)
Theorem construction_advances_once fuel snapshot startKey batchSize w s' w' :
  (forall err,
     Next fuel (fresh snapshot startKey batchSize) w
       = Returns (Some err, s', w') ->
     (IsErrNotFound (Some err) = true ->
      newScanner fuel snapshot startKey batchSize w = Returns (s', None, w')
      /\ Valid s' = false)
     /\
     (IsErrNotFound (Some err) = false ->
      newScanner fuel snapshot startKey batchSize w
        = Returns (s', Some err, w')))
  /\
  (Next fuel (fresh snapshot startKey batchSize) w = Returns (None, s', w') ->
   newScanner fuel snapshot startKey batchSize w = Returns (s', None, w')).
Proof.
  rewrite newScanner_fresh. split.
  - intros err Hnext. rewrite Hnext. split.
    + intros ->. split; [reflexivity|].
      eapply Next_error_closes; [|exact Hnext]. reflexivity.
    + intros ->. reflexivity.
  - intros ->. destruct (IsErrNotFound None); reflexivity.
Qed.

End Advance.

(** ** The order of the keys read *)

Section Order.
Context `{C : Collaborators}.

Lemma above_lt lo k k' : above lo k -> kv.lt k k' -> above lo k'.
Proof. destruct lo as [l|]; simpl; [apply lt_trans|trivial]. Qed.

Lemma above_le lo k k' : above lo k -> kv.le k k' -> above lo k'.
Proof. destruct lo as [l|]; simpl; [apply lt_le_trans|trivial]. Qed.

Lemma sorted_later (l : list kv.Key) : forall i k,
  StronglySorted kv.lt l -> l !! i = Some k -> Forall (kv.lt k) (drop (S i) l).
Proof.
  induction l as [|x l IH]; intros i k Hs Hl; [discriminate|].
  apply StronglySorted_inv in Hs as [Hs Hall].
  destruct i as [|i]; simpl in Hl |- *.
  - simplify_eq. rewrite drop_0. exact Hall.
  - apply IH; assumption.
Qed.

Lemma ahead_later lo s i j : (i <= j)%nat -> ahead lo s i -> ahead lo s j.
Proof.
  intros Hle (Hpage & Hall & Hnext). repeat split; try apply Hpage; [|exact Hnext].
  replace j with (i + (j - i))%nat by lia.
  rewrite <- drop_drop. apply Forall_drop, Hall.
Qed.

Lemma resolveCurrentLock_keeps s bo w e s1 bo1 w1 :
  resolveCurrentLock s bo w = Returns (e, s1, bo1, w1) ->
  keys s1 = keys s /\ idx s1 = idx s /\ eof s1 = eof s
  /\ nextStartKey s1 = nextStartKey s /\ valid s1 = valid s.
Proof.
  unfold resolveCurrentLock, Trace.
  destruct (cache s !! idx s) as [current|] eqn:Hcur; [|discriminate].
  destruct (pb.Error current).
  - destruct (snapshot_get _ _ bo w) as [[[err|val] bo'] w']; intros Hres;
      simplify_eq; repeat split.
    unfold keys. simpl. rewrite list_fmap_insert. simpl.
    apply list_insert_id. rewrite list_lookup_fmap, Hcur. reflexivity.
  - intros Hres. simplify_eq. repeat split.
Qed.

Lemma install_ahead lo s loc kvPairs s1 :
  page_ok (nextStartKey s) loc (pb.Key <$> kvPairs) ->
  above lo (nextStartKey s) ->
  install s loc kvPairs = Returns s1 ->
  ahead lo s1 0.
Proof.
  intros (Hsorted & Hge & Hend) Hlo. unfold install. simpl.
  assert (Forall (above lo) (pb.Key <$> kvPairs)) as Hall.
  { eapply Forall_impl; [exact Hge|]. intros k. apply above_le, Hlo. }
  destruct (Z.of_nat (length kvPairs) <? batchSize s).
  - intros Hin. injection Hin as <-.
    destruct (EndKey loc) as [|x k] eqn:Hk;
      unfold ahead, page_before_next, keys; simpl.
    + split; [split; [exact Hsorted|discriminate]|].
      split; [exact Hall|discriminate].
    + destruct Hend as [Hlt Hbelow]; [discriminate|].
      split; [split; [exact Hsorted|intros _; exact Hbelow]|].
      split; [exact Hall|].
      intros _. eapply above_lt; [exact Hlo|exact Hlt].
  - destruct (last kvPairs) as [lastPair|] eqn:Hlast; [|discriminate].
    intros Hin. injection Hin as <-.
    unfold ahead, page_before_next, keys; simpl.
    split; [split; [exact Hsorted|]|split; [exact Hall|]]; intros _.
    + apply last_Some in Hlast as [init ->].
      rewrite fmap_app in Hsorted |- *. simpl in Hsorted |- *.
      apply Forall_app. split.
      * apply Forall_forall. intros k Hin.
        eapply lt_trans; [|apply lt_Next].
        eapply StronglySorted_app_1_elem_of; [exact Hsorted|exact Hin|].
        apply list_elem_of_singleton. reflexivity.
      * apply Forall_singleton, lt_Next.
    + apply last_Some in Hlast as [init ->].
      rewrite fmap_app, Forall_app in Hall. destruct Hall as [_ Hall].
      simpl in Hall. rewrite Forall_singleton in Hall.
      eapply above_lt; [exact Hall|apply lt_Next].
Qed.

Lemma install_keeps_valid s loc kvPairs s1 :
  install s loc kvPairs = Returns s1 -> valid s1 = valid s /\ idx s1 = 0%nat.
Proof. intros Hin. apply install_cache in Hin. tauto. Qed.

(** Pages are installed in order when the store answers in order and
    every lock names the key of the pair that carries it. *)
Lemma own_locks_in_order :
  scanned_in_order ->
  (forall s bo w loc body bo' w',
     receives s bo w loc body bo' w' ->
     Forall lock_on_own_key (pb.Pairs body)) ->
  installed_in_order.
Proof.
  intros Hscanned Hown s bo w loc body bo' w' kvPairs Hrecv Hrw.
  rewrite (rewriteLockKeys_same_keys _ _ (Hown _ _ _ _ _ _ _ Hrecv) Hrw).
  eapply Hscanned, Hrecv.
Qed.

Section InOrder.
Hypothesis Hinstalled : installed_in_order.

Lemma getData_ahead lo g : forall s bo w s1 bo1 w1,
  above lo (nextStartKey s) ->
  getData g s bo w = Returns (None, s1, bo1, w1) ->
  ahead lo s1 0 /\ idx s1 = 0%nat /\ valid s1 = valid s.
Proof.
  induction g as [|g IH]; intros s bo w s1 bo1 w1 Hlo Hget;
    [discriminate|].
  simpl in Hget. unfold Trace in Hget.
  destruct (LocateKey (nextStartKey s) bo w)
    as [[[err|loc] bo0] w0] eqn:Hloc; [discriminate|].
  destruct (SendReq (scanRequest s) (Region loc) ReadTimeoutMedium bo0 w0)
    as [[[err|resp] bo2] w2] eqn:Hsend; [discriminate|].
  destruct (GetRegionError resp) as [[regionErr|] [err|]] eqn:Hre;
    try discriminate.
  - destruct (Backoff _ _ bo2 w2) as [[[err|] bo3] w3]; [discriminate|].
    eapply IH; eassumption.
  - destruct (tikvrpc.resp_Scan resp) as [body|] eqn:Hbody; [|discriminate].
    destruct (CheckVisibility (startTS s) w2) eqn:Hvis; [discriminate|].
    destruct (rewriteLockKeys (pb.Pairs body)) as [err|kvPairs] eqn:Hrw;
      [discriminate|].
    destruct (install s loc kvPairs) as [s2| |] eqn:Hin; try discriminate.
    simplify_eq.
    assert (receives s bo w loc body bo1 w1) as Hrecv
        by (exists bo0, w0, resp; repeat split; assumption).
    pose proof (Hinstalled _ _ _ _ _ _ _ _ Hrecv Hrw) as Hpage.
    split; [eapply install_ahead; eassumption|].
    apply install_keeps_valid in Hin. tauto.
Qed.

Lemma Next_entry_ahead lo k :
  (forall s bo w s' w',
     ahead lo s (S (idx s)) -> k s bo w = Returns (None, s', w') ->
     valid s' = true -> lands lo s') ->
  forall s bo w s' w',
    ahead lo s (idx s) -> Next_entry k s bo w = Returns (None, s', w') ->
    valid s' = true -> lands lo s'.
Proof.
  intros Hk s bo w s' w' Hahead Hent Hv. unfold Next_entry, Trace in Hent.
  destruct (resolveCurrentLock s bo w) as [[[[[err|] s1] bo1] w1]| |]
    eqn:Hres; try discriminate.
  apply resolveCurrentLock_keeps in Hres as (Hkeys & Hidx & Heof & Hnsk & _).
  assert (ahead lo s1 (idx s1)) as Hahead1.
  { unfold ahead, page_before_next. rewrite Hkeys, Hidx, Heof, Hnsk.
    exact Hahead. }
  destruct (Value s1) as [v| |] eqn:Hval; try discriminate.
  destruct v as [|x v]; simpl in Hent.
  - eapply Hk; [|exact Hent|exact Hv].
    eapply ahead_later; [|exact Hahead1]. lia.
  - simplify_eq. unfold Value in Hval. unfold lands, Key. rewrite Hv in *.
    destruct (cache s' !! idx s') as [p|] eqn:Hp; [|discriminate].
    exists (pb.Key p). split; [reflexivity|].
    destruct Hahead1 as (Hpage & Hall & _). split; [|exact Hpage].
    rewrite Forall_lookup in Hall. apply (Hall 0%nat).
    rewrite lookup_drop, Nat.add_0_r. unfold keys.
    rewrite list_lookup_fmap, Hp. reflexivity.
Qed.

Lemma Next_loop_ahead lo g : forall n s bo w s' w',
  ahead lo s (S (idx s)) -> Next_loop g n s bo w = Returns (None, s', w') ->
  valid s' = true -> lands lo s'.
Proof.
  induction n as [|n IH]; intros s bo w s' w' Hahead Hloop Hv;
    [discriminate|].
  simpl in Hloop. unfold Trace in Hloop.
  assert (ahead lo (set_idx s (S (idx s))) (idx (set_idx s (S (idx s)))))
    as Hahead0 by exact Hahead.
  destruct (length (cache s) <=? S (idx s))%nat.
  - destruct (eof s) eqn:Heof.
    + by simplify_eq.
    + destruct (getData g (set_idx s (S (idx s))) bo w)
        as [[[[[err|] s1] bo1] w1]| |] eqn:Hget; try discriminate.
      apply (getData_ahead lo) in Hget as (Hahead1 & Hidx & _);
        [|destruct Hahead as (_ & _ & Hnext); apply Hnext, Heof].
      destruct (length (cache s1) <=? idx s1)%nat.
      * eapply IH; [|exact Hloop|exact Hv].
        eapply ahead_later; [|exact Hahead1]. lia.
      * eapply Next_entry_ahead; [exact IH| |exact Hloop|exact Hv].
        rewrite Hidx. exact Hahead1.
  - eapply Next_entry_ahead; [exact IH|exact Hahead0|exact Hloop|exact Hv].
Qed.

Lemma ahead_None s i : page_before_next s -> ahead None s i.
Proof.
  intros Hpage. repeat split; try apply Hpage.
  apply Forall_forall. intros k _. exact I.
Qed.

Lemma ahead_current s k :
  page_before_next s -> valid s = true -> Key s = Returns k ->
  ahead (Some k) s (S (idx s)).
Proof.
  intros Hpage Hv Hkey. unfold Key in Hkey. rewrite Hv in Hkey.
  destruct (cache s !! idx s) as [p|] eqn:Hp; [|discriminate].
  injection Hkey as <-.
  assert (keys s !! idx s = Some (pb.Key p)) as Hk
      by (unfold keys; rewrite list_lookup_fmap, Hp; reflexivity).
  split; [exact Hpage|]. destruct Hpage as [Hsorted Hbelow]. split.
  - apply sorted_later; assumption.
  - intros Heof. specialize (Hbelow Heof).
    rewrite Forall_lookup in Hbelow. eapply Hbelow, Hk.
Qed.

Lemma Next_lands_first fuel s w s' w' :
  page_before_next s -> valid s = true ->
  Next fuel s w = Returns (None, s', w') -> valid s' = true ->
  lands None s'.
Proof.
  intros Hpage Hv Hnext Hv'. unfold Next in Hnext. rewrite Hv in Hnext.
  simpl in Hnext. eapply Next_loop_ahead; [|exact Hnext|exact Hv'].
  apply ahead_None, Hpage.
Qed.

Lemma Next_lands fuel s w s' w' k :
  page_before_next s -> valid s = true -> Key s = Returns k ->
  Next fuel s w = Returns (None, s', w') -> valid s' = true ->
  lands (Some k) s'.
Proof.
  intros Hpage Hv Hkey Hnext Hv'. unfold Next in Hnext.
  rewrite Hv in Hnext. simpl in Hnext.
  eapply Next_loop_ahead; [|exact Hnext|exact Hv'].
  apply ahead_current; assumption.
Qed.

Lemma drain_invalid calls fuel s w : valid s = false -> drain calls fuel s w = [].
Proof. intros Hv. destruct calls; simpl; [|unfold Valid; rewrite Hv]; reflexivity. Qed.

Lemma drain_sorted fuel : forall calls s w,
  (valid s = true -> page_before_next s) ->
  StronglySorted kv.lt (drain calls fuel s w)
  /\ forall k, Key s = Returns k -> Forall (kv.le k) (drain calls fuel s w).
Proof.
  induction calls as [|calls IH]; intros s w Hpage; simpl.
  - split; [constructor|]. intros k _. constructor.
  - unfold Valid. destruct (valid s) eqn:Hv;
      [|split; [constructor|intros k _; constructor]].
    specialize (Hpage eq_refl).
    destruct (Key s) as [k| |] eqn:Hkey;
      [|split; [constructor|intros k' _; constructor]..].
    assert (StronglySorted kv.lt
              match Next fuel s w with
              | Returns (None, s0, w0) => drain calls fuel s0 w0
              | _ => []
              end
            /\ Forall (kv.lt k)
                 match Next fuel s w with
                 | Returns (None, s0, w0) => drain calls fuel s0 w0
                 | _ => []
                 end) as [Hrest Hall].
    { destruct (Next fuel s w) as [[[[err|] s'] w']| |] eqn:Hnext;
        try (split; constructor).
      destruct (valid s') eqn:Hv';
        [|rewrite drain_invalid by exact Hv'; split; constructor].
      destruct (Next_lands _ _ _ _ _ _ Hpage Hv Hkey Hnext Hv')
        as (k' & Hkey' & Hlt & Hpage').
      destruct (IH s' w' (fun _ => Hpage')) as [Hsorted Hle].
      split; [exact Hsorted|].
      eapply Forall_impl; [exact (Hle k' Hkey')|].
      intros k2. apply lt_le_trans, Hlt. }
    split; [constructor; assumption|].
    intros k0 Hk0. injection Hk0 as <-. constructor; [apply le_refl|].
    eapply Forall_impl; [exact Hall|]. intros k2. apply lt_le.
Qed.

Lemma fresh_page snapshot startKey batchSize :
  page_before_next (fresh snapshot startKey batchSize).
Proof. split; [constructor|]. intros _. constructor. Qed.

Lemma scan_sorted calls fuel snapshot startKey batchSize w :
  StronglySorted kv.lt (scan calls fuel snapshot startKey batchSize w).
Proof.
  unfold scan. rewrite newScanner_fresh.
  destruct (Next fuel (fresh snapshot startKey batchSize) w)
    as [[[err s] w']| |] eqn:Hnext; try constructor.
  assert (valid s = true -> err = None -> page_before_next s) as Hpage.
  { intros Hv ->.
    destruct (Next_lands_first _ _ _ _ _
                (fresh_page snapshot startKey batchSize) eq_refl Hnext Hv)
      as (k & _ & _ & Hpage). exact Hpage. }
  assert (err <> None -> valid s = false) as Hclosed.
  { destruct err as [e|]; [|congruence]. intros _.
    eapply Next_error_closes; [|exact Hnext]. reflexivity. }
  destruct (IsErrNotFound err).
  - destruct err as [e|].
    + rewrite drain_invalid by (apply Hclosed; discriminate). constructor.
    + apply drain_sorted. intros Hv. apply Hpage; [exact Hv|reflexivity].
  - unfold Trace. destruct err as [e|]; [constructor|].
    apply drain_sorted. intros Hv. apply Hpage; [exact Hv|reflexivity].
Qed.

(** C1, as the code has it.  When every page the fetch installs, that
    is the pairs of the response after the keys of the locked pairs
    were replaced by the keys of their locks, is in strictly increasing
    order, does not start below the start key of the scan and lies,
    like the start key, below the end key of a region that has one,
    then the keys a caller reads from a fresh Scanner, in any run of
    successful advances, are strictly increasing, and so no key is read
    twice. *)
Theorem keys_strictly_increase : keys_increase /\ keys_unique.
Proof.
  split; intros calls fuel snapshot startKey batchSize w.
  - apply scan_sorted.
  - apply sorted_NoDup, scan_sorted.
Qed.

End InOrder.
End Order.

(** ** The cluster *)

Section ClusterFacts.
Import Cluster.

Lemma sorted_sublist (l1 l2 : list kv.Key) :
  l1 `sublist_of` l2 -> StronglySorted kv.lt l2 -> StronglySorted kv.lt l1.
Proof.
  induction 1 as [|x l1 l2 Hsub IH|x l1 l2 Hsub IH]; intros Hs.
  - constructor.
  - apply StronglySorted_inv in Hs as [Hs Hall].
    constructor; [apply IH, Hs|].
    apply Forall_forall. intros k Hin. rewrite Forall_forall in Hall.
    apply Hall. eapply elem_of_sublist; eassumption.
  - apply StronglySorted_inv in Hs as [Hs _]. apply IH, Hs.
Qed.

Lemma locate_end (splits : list kv.Key) : forall start id k,
  EndKey (locate start id splits k) <> [] ->
  kv.lt k (EndKey (locate start id splits k)).
Proof.
  induction splits as [|m rest IH]; intros start id k; simpl.
  - intros Hne. contradiction.
  - destruct (kv.ltb k m) eqn:Hlt; simpl.
    + intros _. apply ltb_lt, Hlt.
    + apply IH.
Qed.

Lemma serve_sublist st k limit : serve st k limit `sublist_of` pairs st.
Proof.
  unfold serve. etransitivity; [apply sublist_take|apply sublist_filter].
Qed.

Lemma serve_in_range st k limit p :
  p ∈ serve st k limit ->
  in_range k (EndKey (locate [] 0%nat (splits st) k)) p = true.
Proof.
  unfold serve. intros Hin. apply subseteq_take in Hin.
  apply list_elem_of_filter in Hin as [Hin _]. exact Hin.
Qed.

Lemma serve_page_ok st k limit :
  StronglySorted kv.lt (pb.Key <$> pairs st) ->
  page_ok k (locate [] 0%nat (splits st) k) (pb.Key <$> serve st k limit).
Proof.
  intros Hsorted. split; [|split].
  - eapply sorted_sublist; [|exact Hsorted].
    apply fmap_sublist, serve_sublist.
  - apply Forall_fmap, Forall_forall. intros p Hin.
    apply serve_in_range in Hin. unfold in_range in Hin.
    apply andb_prop in Hin as [Hle _]. apply leb_le, Hle.
  - intros Hne. split; [apply locate_end, Hne|].
    apply Forall_fmap, Forall_forall. intros p Hin.
    apply serve_in_range in Hin. unfold in_range in Hin.
    apply andb_prop in Hin as [_ Hlt].
    destruct (EndKey (locate [] 0%nat (splits st) k)); [contradiction|].
    apply ltb_lt, Hlt.
Qed.

Lemma cluster_receives st s bo w loc body bo' w' :
  @receives _ (env st) s bo w loc body bo' w' ->
  loc = locate [] 0%nat (splits st) (nextStartKey s)
  /\ pb.Pairs body = serve st (nextStartKey s) (batchSize s mod 2 ^ 32).
Proof.
  intros (bo1 & w1 & resp & Hloc & Hsend & Hre & Hbody & _).
  simpl in Hloc, Hsend, Hre. injection Hloc as <- <- <-.
  unfold send in Hsend.
  destruct w as [|[msg|msg| |msg] w]; simplify_eq; simpl in *;
    try discriminate; injection Hbody as <-; split; reflexivity.
Qed.

Lemma cluster_scanned_in_order st :
  StronglySorted kv.lt (pb.Key <$> pairs st) ->
  @scanned_in_order _ (env st).
Proof.
  intros Hsorted s bo w loc body bo' w' Hrecv.
  apply cluster_receives in Hrecv as [-> ->].
  apply serve_page_ok, Hsorted.
Qed.

Lemma cluster_installed_in_order st :
  StronglySorted kv.lt (pb.Key <$> pairs st) ->
  Forall (@lock_on_own_key _ (env st)) (pairs st) ->
  @installed_in_order _ (env st).
Proof.
  intros Hsorted Hown s bo w loc body bo' w' kvPairs Hrecv Hrw.
  apply cluster_receives in Hrecv as [-> Hbody]. rewrite Hbody in Hrw.
  apply rewriteLockKeys_same_keys in Hrw as ->.
  - apply serve_page_ok, Hsorted.
  - apply Forall_forall. intros p Hin. rewrite Forall_forall in Hown.
    apply Hown. eapply elem_of_sublist; [exact Hin|apply serve_sublist].
Qed.

Lemma letters_sorted : StronglySorted kv.lt (pb.Key <$> pairs letters).
Proof. repeat (constructor; try reflexivity). Qed.

Lemma letters_locks : Forall (@lock_on_own_key _ (env letters)) (pairs letters).
Proof.
  repeat constructor; intros keyErr lock Herr Hex; simpl in Herr;
    simplify_eq; simpl in Hex; simplify_eq; reflexivity.
Qed.

Lemma letters_installed_in_order : @installed_in_order _ (env letters).
Proof.
  apply cluster_installed_in_order; [apply letters_sorted|apply letters_locks].
Qed.

Lemma crossed_sorted : StronglySorted kv.lt (pb.Key <$> pairs crossed).
Proof. repeat (constructor; try reflexivity). Qed.

(** The scenario of the spec: scanning [letters] from the empty key with a
    page size of 3 reads [a], [b], [d] with the value [D2], and [e]. *)
Example letters_scan :
  match @newScanner _ (env letters) 8 (snap 10) [] 3 [] with
  | Returns (s, None, w) => @drain_pairs _ (env letters) 8 8 s w
  | _ => []
  end = [ (a, [x41]); (b, [x42]); (d, D2); (e, [x45]) ].
Proof. vm_compute. reflexivity. Qed.

End ClusterFacts.

(** ** Runs on the cluster *)

Section Runs.
Import Cluster.

Lemma cluster_receives_now st s bo :
  safePoint st <= version (snapshot s) ->
  @receives _ (env st) s bo []
    (locate [] 0%nat (splits st) (nextStartKey s))
    (pb.mkScanResponse None
       (serve st (nextStartKey s) (batchSize s mod 2 ^ 32)))
    bo [].
Proof.
  intros Hsafe. eexists bo, [], _. simpl. split; [reflexivity|].
  split; [reflexivity|]. split; [reflexivity|]. split; [reflexivity|].
  unfold startTS. destruct (Z.ltb_spec (version (snapshot s)) (safePoint st));
    [lia|reflexivity].
Qed.

(** C1, as it is stated, fails.  On [crossed] every scan answers in key
    order, and yet the Scanner reads [a] three times: the lock met at [b]
    names [a], and the pair is installed, read and passed under that
    key. *)
Lemma crossed_keys_repeat :
  @scanned_in_order _ (env crossed)
  /\ @scan _ (env crossed) 3 4 (snap 10) [] 2 [] = [a; a; a]
  /\ ~ @keys_increase _ (env crossed)
  /\ ~ @keys_unique _ (env crossed).
Proof.
  split; [apply cluster_scanned_in_order, crossed_sorted|].
  assert (@scan _ (env crossed) 3 4 (snap 10) [] 2 [] = [a; a; a]) as Hscan
      by (vm_compute; reflexivity).
  split; [exact Hscan|]. split.
  - intros Hinc. specialize (Hinc 3%nat 4%nat (snap 10) [] 2 []).
    rewrite Hscan in Hinc. apply StronglySorted_inv in Hinc as [_ Hall].
    apply Forall_inv in Hall. exact (lt_irrefl a Hall).
  - intros Huniq. specialize (Huniq 3%nat 4%nat (snap 10) [] 2 []).
    rewrite Hscan in Huniq. apply NoDup_cons in Huniq as [Hnotin _].
    apply Hnotin. left.
Qed.

Lemma keys_strictly_increase_witness :
  @installed_in_order _ (env letters)
  /\ (@keys_increase _ (env letters) /\ @keys_unique _ (env letters))
  /\ @scan _ (env letters) 6 6 (snap 10) [] 3 [] = [a; b; d; e].
Proof.
  split; [exact letters_installed_in_order|].
  split; [|vm_compute; reflexivity].
  exact (keys_strictly_increase (C := env letters) letters_installed_in_order).
Defined.

Lemma lock_keys_overwrite_witness :
  (exists s',
     @getData _ (env letters) 1 (due c 3) 3%nat []
       = Returns (None, s', 3%nat, [])
     /\ Forall2 (@rewritten _ (env letters)) (serve letters c 3) (cache s'))
  /\
  (exists err' p' keyErr',
     @getData _ (env restarting) 1 (due [] 3) 3%nat []
       = Returns (Some err', due [] 3, 3%nat, [])
     /\ p' ∈ serve restarting [] 3 /\ pb.Error p' = Some keyErr'
     /\ extract keyErr' = inl err').
Proof.
  split.
  - apply (proj1 (lock_keys_overwrite (C := env letters) 0 (due c 3) 3%nat []
                    _ _ 3%nat []
                    (cluster_receives_now letters (due c 3) 3%nat
                       ltac:(simpl; lia)))).
    + repeat constructor; intros keyErr Herr; vm_compute in Herr;
        simplify_eq; eexists; reflexivity.
    + reflexivity.
  - apply (proj2 (lock_keys_overwrite (C := env restarting) 0 (due [] 3)
                    3%nat [] _ _ 3%nat []
                    (cluster_receives_now restarting (due [] 3) 3%nat
                       ltac:(simpl; lia)))
                 (@pb.mkKvPair types (Some (Retryable "restart")) b [])
                 (Retryable "restart") "restart"%string).
    + vm_compute. right. left.
    + reflexivity.
    + reflexivity.
Defined.

Lemma next_page_start_witness :
  (* a short page of the first region: the next page starts at [c] *)
  match @getData _ (env letters) 1 (due [] 3) 3%nat [] with
  | Returns (None, s1, _, _) =>
    idx s1 = 0%nat /\ nextStartKey s1 = c /\ eof s1 = false
  | _ => False
  end
  /\
  (* a full page: the next page starts right after [e] *)
  match @getData _ (env letters) 1 (due c 3) 3%nat [] with
  | Returns (None, s1, _, _) =>
    idx s1 = 0%nat /\ nextStartKey s1 = e ++ [x00] /\ eof s1 = false
  | _ => False
  end
  /\
  (* a short page of the last region: the data has ended *)
  match @getData _ (env letters) 1 (due (e ++ [x00]) 3) 3%nat [] with
  | Returns (None, s1, _, _) =>
    idx s1 = 0%nat /\ nextStartKey s1 = [] /\ eof s1 = true
  | _ => False
  end.
Proof.
  split; [|split].
  - destruct (@getData _ (env letters) 1 (due [] 3) 3%nat [])
      as [[[[[err|] s1] bo1] w1]| |] eqn:Hget;
      try (vm_compute in Hget; discriminate).
    destruct (next_page_start (C := env letters) 0 (due [] 3) 3%nat [] _ _
                3%nat [] s1 bo1 w1
                (cluster_receives_now letters (due [] 3) 3%nat
                   ltac:(simpl; lia)) Hget)
      as (Hidx & _ & Hshort & _).
    destruct Hshort as (Hnext & _ & Heof); [reflexivity|].
    split; [exact Hidx|]. split; [exact Hnext|].
    apply Heof. discriminate.
  - destruct (@getData _ (env letters) 1 (due c 3) 3%nat [])
      as [[[[[err|] s1] bo1] w1]| |] eqn:Hget;
      try (vm_compute in Hget; discriminate).
    destruct (next_page_start (C := env letters) 0 (due c 3) 3%nat [] _ _
                3%nat [] s1 bo1 w1
                (cluster_receives_now letters (due c 3) 3%nat
                   ltac:(simpl; lia)) Hget)
      as (Hidx & _ & _ & Hfull).
    destruct Hfull as (lastPair & Hlast & Hnext & Heof & _);
      [vm_compute; discriminate|].
    split; [exact Hidx|]. split; [|exact Heof].
    vm_compute in Hget. injection Hget as <- _ _.
    vm_compute in Hlast. injection Hlast as <-. exact Hnext.
  - destruct (@getData _ (env letters) 1 (due (e ++ [x00]) 3) 3%nat [])
      as [[[[[err|] s1] bo1] w1]| |] eqn:Hget;
      try (vm_compute in Hget; discriminate).
    destruct (next_page_start (C := env letters) 0 (due (e ++ [x00]) 3)
                3%nat [] _ _ 3%nat [] s1 bo1 w1
                (cluster_receives_now letters (due (e ++ [x00]) 3) 3%nat
                   ltac:(simpl; lia)) Hget)
      as (Hidx & _ & Hshort & _).
    destruct Hshort as (Hnext & Heof & _); [reflexivity|].
    split; [exact Hidx|]. split; [exact Hnext|].
    apply Heof. reflexivity.
Defined.

Lemma tombstones_are_skipped_witness :
  (* from [b] the cursor passes the deleted [c] and stops on [d] *)
  match @Next _ (env letters) 4 on_b [] with
  | Returns (None, s', _) =>
    Valid s' = false \/ exists v, Value s' = Returns v /\ v <> []
  | _ => False
  end
  /\
  (* the turn of the loop that moves the cursor to [c] goes on from [c] *)
  (let before_c :=
        mkScanner (snap 10) 4 true (drop 1 (pairs letters)) 0%nat
                  (e ++ [x00]) false in
      @Next_loop _ (env letters) 4 3 before_c 3%nat []
      = @Next_loop _ (env letters) 4 2 (set_idx before_c 1) 3%nat []).
Proof.
  split.
  - destruct (@Next _ (env letters) 4 on_b []) as [[[[err|] s'] w']| |]
      eqn:Hnext; try (vm_compute in Hnext; discriminate).
    exact (proj1 (tombstones_are_skipped (C := env letters))
                 4%nat on_b [] s' w' Hnext).
  - intros before_c.
    apply (proj2 (tombstones_are_skipped (C := env letters))).
    + simpl. lia.
    + reflexivity.
    + reflexivity.
Defined.

Lemma conflict_resolution_witness :
  (* [d] is locked and reads as [D2] *)
  (exists s',
     @resolveCurrentLock _ (env letters) on_d 3%nat []
       = Returns (None, s', 3%nat, [])
     /\ Value s' = Returns D2 /\ Key s' = Returns d
     /\ cache s' !! 1%nat = Some (pb.mkKvPair None d D2))
  /\
  (* the point read fails *)
  @resolveCurrentLock _ (env letters) on_d 3%nat [ReadFails "timeout"]
    = Returns (Some "timeout"%string, on_d, 3%nat, []).
Proof.
  split.
  - destruct (proj1 (conflict_resolution (C := env letters) on_d 3%nat []
                       (@pb.mkKvPair types (Some (Locked d)) d []) (Locked d)
                       eq_refl eq_refl)
                    D2 3%nat [] eq_refl)
      as (s' & Hres & Hcur & _ & _ & _ & Hval).
    exists s'. split; [exact Hres|].
    destruct (Hval eq_refl) as [Hv Hk].
    split; [exact Hv|]. split; [exact Hk|].
    vm_compute in Hres. injection Hres as <-. reflexivity.
  - exact (proj2 (conflict_resolution (C := env letters) on_d 3%nat
                    [ReadFails "timeout"]
                    (@pb.mkKvPair types (Some (Locked d)) d []) (Locked d)
                    eq_refl eq_refl)
                 "timeout"%string 3%nat [] eq_refl).
Defined.

Lemma fetch_is_atomic_witness :
  (* the response has no body *)
  match @getData _ (env letters) 2 on_b 3%nat [NoBody] with
  | Returns (Some err, s', _, _) =>
    s' = on_b /\ cache s' = cache on_b /\ idx s' = idx on_b
    /\ nextStartKey s' = nextStartKey on_b /\ eof s' = eof on_b
  | _ => False
  end.
Proof.
  destruct (@getData _ (env letters) 2 on_b 3%nat [NoBody])
    as [[[[[err|] s'] bo'] w']| |] eqn:Hget;
    try (vm_compute in Hget; discriminate).
  exact (fetch_is_atomic (C := env letters) 2 on_b 3%nat [NoBody]
           err s' bo' w' Hget).
Defined.

Lemma exhaustion_is_terminal_witness :
  Valid closed = false
  /\ @Next _ (env letters) 4 closed []
     = Returns (Some "scanner iterator is invalid"%string, closed, [])
  /\ Key closed = Returns []
  /\ Value closed = Returns []
  /\ Valid (Close closed) = false
  /\ exists s' w',
       @run_ops _ (env letters) 4 [OpNext; OpKey; OpClose; OpValue; OpNext]
                closed [] = Returns (s', w')
       /\ Valid s' = false.
Proof.
  split; [reflexivity|].
  destruct (exhaustion_is_terminal (C := env letters) 4 closed [] eq_refl)
    as (Hnext & Hkey & Hvalue & Hclose & Hops).
  repeat (split; [assumption|]).
  apply Hops.
Defined.

Lemma cluster_region_miss st s bo msg w :
  @region_miss _ (env st) s bo (RegionMiss msg :: w) msg bo w.
Proof. eexists _, bo, _, _. repeat split. Qed.

Lemma cluster_retried st s bo msg w :
  @retried _ (env st) s (S bo, RegionMiss msg :: w) (bo, w).
Proof.
  exists msg, (S bo), w. split; [apply cluster_region_miss|reflexivity].
Qed.

Lemma cluster_transport_fails st s bo msg w :
  @transport_fails _ (env st) s bo (SendFails msg :: w) msg bo w.
Proof. eexists _, bo, _. repeat split. Qed.

Lemma routing_miss_recovery_witness :
  (* two region errors, then the page of [a] and [b] *)
  match @getData _ (env letters) 1 (due [] 3) 1%nat [] with
  | Returns (None, s', bo', w') =>
    @getData _ (env letters) 3 (due [] 3) 3%nat
             [RegionMiss "epoch"; RegionMiss "leader"]
    = Returns (None, s', bo', w')
  | _ => False
  end
  /\
  (* a region error, then one more than the backoffer grants *)
  @getData _ (env letters) 2 (due [] 3) 1%nat
           [RegionMiss "epoch"; RegionMiss "leader"]
  = Returns (Some "backoffer.maxSleep is exceeded"%string, due [] 3,
             0%nat, [])
  /\
  (* a region error, then a failure of the transport *)
  @getData _ (env letters) 2 (due [] 3) 3%nat
           [RegionMiss "epoch"; SendFails "timeout"]
  = Returns (Some "timeout"%string, due [] 3, 2%nat, [])
  /\
  (* more region errors than [Next] has backoffs for *)
  (let misses := replicate 4 (RegionMiss "epoch") in
   @Next _ (env letters) 5 on_b misses
   = Returns (Some "backoffer.maxSleep is exceeded"%string,
              Close (set_idx on_b 2), [])
   /\ Valid (Close (set_idx on_b 2)) = false).
Proof.
  split; [|split; [|split]].
  - destruct (@getData _ (env letters) 1 (due [] 3) 1%nat [])
      as [[[[[err|] s'] bo'] w']| |] eqn:Hone;
      try (vm_compute in Hone; discriminate).
    refine (proj1 (routing_miss_recovery (C := env letters) 3 (due [] 3) 2
                     3%nat [RegionMiss "epoch"; RegionMiss "leader"]
                     1%nat [] _ _) s' bo' w' Hone); [|lia].
    eapply retries_S; [apply cluster_retried|].
    eapply retries_S; [apply cluster_retried|]. apply retries_O.
  - refine (proj1 (proj2 (routing_miss_recovery (C := env letters) 2
                            (due [] 3) 1 1%nat
                            [RegionMiss "epoch"; RegionMiss "leader"]
                            0%nat [RegionMiss "leader"] _ _))
                  "leader"%string 0%nat []
                  "backoffer.maxSleep is exceeded"%string 0%nat []
                  (cluster_region_miss letters (due [] 3) 0%nat
                     "leader"%string []) eq_refl); [|lia].
    eapply retries_S; [apply cluster_retried|]. apply retries_O.
  - refine (proj1 (proj2 (proj2 (routing_miss_recovery (C := env letters) 2
                            (due [] 3) 1 3%nat
                            [RegionMiss "epoch"; SendFails "timeout"]
                            2%nat [SendFails "timeout"] _ _)))
                  "timeout"%string 2%nat []
                  (cluster_transport_fails letters (due [] 3) 2%nat
                     "timeout"%string [])); [|lia].
    eapply retries_S; [apply cluster_retried|]. apply retries_O.
  - intros misses.
    refine (proj2 (proj2 (proj2 (routing_miss_recovery (C := env letters) 5
                            (set_idx on_b 2) 0 3%nat misses 3%nat misses
                            (retries_O _ _) _)))
                  on_b "backoffer.maxSleep is exceeded"%string 0%nat []
                  eq_refl _ eq_refl eq_refl eq_refl _);
      [lia|simpl; lia|vm_compute; reflexivity].
Defined.

Lemma construction_advances_once_witness :
  (* the first request fails with the not-found error *)
  match @Next _ (env letters) 4 (@fresh _ (env letters) (snap 10) [] 3)
              [SendFails "not exist"] with
  | Returns (Some err, s', w') =>
    @newScanner _ (env letters) 4 (snap 10) [] 3 [SendFails "not exist"]
    = Returns (s', None, w')
    /\ Valid s' = false
  | _ => False
  end
  /\
  (* the first request fails with another error *)
  match @Next _ (env letters) 4 (@fresh _ (env letters) (snap 10) [] 3)
              [SendFails "timeout"] with
  | Returns (Some err, s', w') =>
    @newScanner _ (env letters) 4 (snap 10) [] 3 [SendFails "timeout"]
    = Returns (s', Some err, w')
  | _ => False
  end
  /\
  (* the advance succeeds *)
  match @Next _ (env letters) 4 (@fresh _ (env letters) (snap 10) [] 3) [] with
  | Returns (None, s', w') =>
    @newScanner _ (env letters) 4 (snap 10) [] 3 [] = Returns (s', None, w')
  | _ => False
  end.
Proof.
  split; [|split].
  - destruct (@Next _ (env letters) 4 (@fresh _ (env letters) (snap 10) [] 3)
                    [SendFails "not exist"])
      as [[[[err|] s'] w']| |] eqn:Hnext;
      try (vm_compute in Hnext; discriminate).
    apply (proj1 (construction_advances_once (C := env letters) 4 (snap 10)
                    [] 3 [SendFails "not exist"] s' w') err Hnext).
    vm_compute in Hnext. injection Hnext as <- _ _. reflexivity.
  - destruct (@Next _ (env letters) 4 (@fresh _ (env letters) (snap 10) [] 3)
                    [SendFails "timeout"])
      as [[[[err|] s'] w']| |] eqn:Hnext;
      try (vm_compute in Hnext; discriminate).
    apply (proj1 (construction_advances_once (C := env letters) 4 (snap 10)
                    [] 3 [SendFails "timeout"] s' w') err Hnext).
    vm_compute in Hnext. injection Hnext as <- _ _. reflexivity.
  - destruct (@Next _ (env letters) 4 (@fresh _ (env letters) (snap 10) [] 3) [])
      as [[[[err|] s'] w']| |] eqn:Hnext;
      try (vm_compute in Hnext; discriminate).
    exact (proj2 (construction_advances_once (C := env letters) 4 (snap 10)
                    [] 3 [] s' w') Hnext).
Defined.

End Runs.

(** ** What every advance keeps *)

Section Keeps.
Context `{C : Collaborators}.

Lemma resolveCurrentLock_config s bo w e s1 bo1 w1 :
  resolveCurrentLock s bo w = Returns (e, s1, bo1, w1) ->
  snapshot s1 = snapshot s /\ batchSize s1 = batchSize s
  /\ length (cache s1) = length (cache s).
Proof.
  unfold resolveCurrentLock, Trace.
  destruct (cache s !! idx s) as [current|]; [|discriminate].
  destruct (pb.Error current).
  - destruct (snapshot_get _ _ bo w) as [[[err|val] bo'] w']; intros Hres;
      simplify_eq; repeat split.
    simpl. apply length_insert.
  - intros Hres. simplify_eq. repeat split.
Qed.

Lemma getData_config g : forall s bo w e s1 bo1 w1,
  getData g s bo w = Returns (e, s1, bo1, w1) ->
  snapshot s1 = snapshot s /\ batchSize s1 = batchSize s
  /\ valid s1 = valid s.
Proof.
  induction g as [|g IH]; intros s bo w e s1 bo1 w1 Hget; [discriminate|].
  simpl in Hget. unfold Trace in Hget.
  destruct (LocateKey (nextStartKey s) bo w) as [[[err|loc] bo0] w0];
    [simplify_eq; repeat split|].
  destruct (SendReq (scanRequest s) (Region loc) ReadTimeoutMedium bo0 w0)
    as [[[err|resp] bo2] w2]; [simplify_eq; repeat split|].
  destruct (GetRegionError resp) as [[regionErr|] [err|]];
    try (simplify_eq; repeat split; fail).
  - destruct (Backoff _ _ bo2 w2) as [[[err|] bo3] w3];
      [simplify_eq; repeat split|].
    eapply IH, Hget.
  - destruct (tikvrpc.resp_Scan resp) as [body|];
      [|simplify_eq; repeat split].
    destruct (CheckVisibility (startTS s) w2); [simplify_eq; repeat split|].
    destruct (rewriteLockKeys (pb.Pairs body)) as [err|kvPairs];
      [simplify_eq; repeat split|].
    destruct (install s loc kvPairs) as [s2| |] eqn:Hin; try discriminate.
    simplify_eq. apply install_cache in Hin. tauto.
Qed.

(** A property of Scanners that moving the cursor, closing, resolving a
    lock and, while the data has not ended, fetching a page keep, is kept
    by the loop of [Next]. *)
Lemma Next_loop_keeps (I : Scanner -> Prop) g :
  (forall s i, I s -> I (set_idx s i)) ->
  (forall s, I s -> I (Close s)) ->
  (forall s bo w e s' bo' w',
     I s -> eof s = false ->
     getData g s bo w = Returns (e, s', bo', w') -> I s') ->
  (forall s bo w e s' bo' w',
     I s -> resolveCurrentLock s bo w = Returns (e, s', bo', w') -> I s') ->
  forall n s bo w e s' w',
    I s -> Next_loop g n s bo w = Returns (e, s', w') -> I s'.
Proof.
  intros Hidx Hclose Hget Hres.
  assert (forall k : Scanner -> Backoffer -> World ->
                     result (option error * Scanner * World),
             (forall s bo w e s' w',
                I s -> k s bo w = Returns (e, s', w') -> I s') ->
             forall s bo w e s' w',
               I s -> Next_entry k s bo w = Returns (e, s', w') -> I s')
    as Hentry.
  { intros k Hk s bo w e s' w' Hs Hent. unfold Next_entry, Trace in Hent.
    destruct (resolveCurrentLock s bo w) as [[[[[err|] s1] bo1] w1]| |]
      eqn:Hr; try discriminate.
    - simplify_eq. eapply Hclose, Hres; eassumption.
    - pose proof (Hres _ _ _ _ _ _ _ Hs Hr) as Hs1.
      destruct (Value s1) as [v| |]; try discriminate.
      destruct (length v =? 0)%nat.
      + eapply Hk; eassumption.
      + simplify_eq. exact Hs1. }
  induction n as [|n IH]; intros s bo w e s' w' Hs Hloop; [discriminate|].
  simpl in Hloop. unfold Trace in Hloop.
  pose proof (Hidx s (S (idx s)) Hs) as Hs0.
  destruct (length (cache s) <=? S (idx s))%nat.
  - destruct (eof s) eqn:Heof.
    + simplify_eq. apply Hclose, Hs0.
    + destruct (getData g (set_idx s (S (idx s))) bo w)
        as [[[[[err|] s1] bo1] w1]| |] eqn:Hg; try discriminate.
      * simplify_eq. eapply Hclose, Hget; [exact Hs0|exact Heof|exact Hg].
      * pose proof (Hget _ _ _ _ _ _ _ Hs0 Heof Hg) as Hs1.
        destruct (length (cache s1) <=? idx s1)%nat.
        -- eapply IH; eassumption.
        -- eapply Hentry; [exact IH|exact Hs1|exact Hloop].
  - eapply Hentry; [exact IH|exact Hs0|exact Hloop].
Qed.

Lemma Next_keeps (I : Scanner -> Prop) fuel :
  (forall s i, I s -> I (set_idx s i)) ->
  (forall s, I s -> I (Close s)) ->
  (forall s bo w e s' bo' w',
     I s -> eof s = false ->
     getData fuel s bo w = Returns (e, s', bo', w') -> I s') ->
  (forall s bo w e s' bo' w',
     I s -> resolveCurrentLock s bo w = Returns (e, s', bo', w') -> I s') ->
  forall s w e s' w',
    I s -> Next fuel s w = Returns (e, s', w') -> I s'.
Proof.
  intros Hidx Hclose Hget Hres s w e s' w' Hs Hnext. unfold Next in Hnext.
  destruct (valid s); simpl in Hnext.
  - eapply Next_loop_keeps; eassumption.
  - simplify_eq. exact Hs.
Qed.

(** X1.  [Next] never changes the snapshot, and with it the read version,
    nor the page size of the Scanner, whether it succeeds or fails. *)
Theorem Next_keeps_snapshot fuel s w e s' w' :
  Next fuel s w = Returns (e, s', w') ->
  snapshot s' = snapshot s /\ batchSize s' = batchSize s
  /\ startTS s' = startTS s.
Proof.
  intros Hnext.
  assert (snapshot s' = snapshot s /\ batchSize s' = batchSize s) as [Hsn Hb].
  { apply (Next_keeps
             (fun s1 => snapshot s1 = snapshot s /\ batchSize s1 = batchSize s)
             fuel) with (s := s) (w := w) (e := e) (w' := w');
      [| | | |split; reflexivity|exact Hnext].
    - intros s1 i Hs1. exact Hs1.
    - intros s1 Hs1. exact Hs1.
    - intros s1 bo1 w1 e1 s2 bo2 w2 [Hsn Hb] _ Hget.
      apply getData_config in Hget as (-> & -> & _). split; assumption.
    - intros s1 bo1 w1 e1 s2 bo2 w2 [Hsn Hb] Hres.
      apply resolveCurrentLock_config in Hres as (-> & -> & _).
      split; assumption. }
  unfold startTS. rewrite Hsn. repeat split; assumption.
Qed.

(** X2.  The Scanner [newScanner] returns reads at the version of the
    snapshot it was given, and its page size is the requested one when
    that is above 1 and the default otherwise; so it is above 1 whenever
    the default is. *)
Theorem newScanner_page_size fuel snapshot0 startKey batchSize0 w s e w' :
  newScanner fuel snapshot0 startKey batchSize0 w = Returns (s, e, w') ->
  snapshot s = snapshot0
  /\ batchSize s = (if batchSize0 <=? 1 then scanBatchSize else batchSize0)
  /\ (1 < scanBatchSize -> 1 < batchSize s).
Proof.
  rewrite newScanner_fresh. intros Hnew.
  destruct (Next fuel (fresh snapshot0 startKey batchSize0) w)
    as [[[err s1] w1]| |] eqn:Hnext; try discriminate.
  assert (s1 = s) as -> by (destruct (IsErrNotFound err); congruence).
  apply Next_keeps_snapshot in Hnext as (Hsn & Hb & _).
  simpl in Hsn, Hb. rewrite Hsn, Hb. repeat split.
  intros Hdef. destruct (Z.leb_spec batchSize0 1); lia.
Qed.

(** X3.  After [Next] has returned, the Scanner is valid only when [Next]
    succeeded, and then the cursor is on an entry of the page: [Key()] and
    [Value()] return the key and the value of that entry, and the value is
    not empty.  In particular every failed [Next] leaves the Scanner
    closed, whatever state it was called in. *)
Theorem Next_valid_in_page fuel s w e s' w' :
  Next fuel s w = Returns (e, s', w') -> Valid s' = true ->
  e = None /\ in_page s'
  /\ exists p, cache s' !! idx s' = Some p
              /\ Key s' = Returns (pb.Key p)
              /\ Value s' = Returns (pb.Value p) /\ pb.Value p <> [].
Proof.
  unfold Valid. intros Hnext Hv. unfold Next in Hnext.
  destruct (valid s) eqn:Hvs; simpl in Hnext; [|simplify_eq; congruence].
  refine (Next_loop_exits
            (fun r => valid r.1.2 = true ->
                      r.1.1 = None /\ in_page r.1.2
                      /\ exists p, cache r.1.2 !! idx r.1.2 = Some p
                                  /\ Key r.1.2 = Returns (pb.Key p)
                                  /\ Value r.1.2 = Returns (pb.Value p)
                                  /\ pb.Value p <> [])
            fuel _ _ fuel s (NewBackoffer scannerNextMaxBackoff) w
            (e, s', w') Hnext Hv).
  - intros e0 s0 w0 Hclosed Hv0. simpl in Hv0. congruence.
  - intros s0 w0 v Hval Hne Hv0. simpl in *. unfold Value, Key in *.
    rewrite Hv0 in *.
    destruct (cache s0 !! idx s0) as [p|] eqn:Hp; [|discriminate].
    simplify_eq. split; [reflexivity|].
    split; [eapply lookup_lt_Some, Hp|].
    exists p. repeat split. exact Hne.
Qed.

(** X4.  Once the data has ended, [Next] never replaces the page: the
    end-of-data flag stays raised, and the keys of the page and the start
    key of the next page are those of before the call. *)
Theorem eof_is_final fuel s w e s' w' :
  Next fuel s w = Returns (e, s', w') -> eof s = true ->
  eof s' = true /\ keys s' = keys s /\ nextStartKey s' = nextStartKey s.
Proof.
  intros Hnext Heof.
  apply (Next_keeps
           (fun s1 => eof s1 = true /\ keys s1 = keys s
                      /\ nextStartKey s1 = nextStartKey s)
           fuel) with (s := s) (w := w) (e := e) (w' := w');
    [| | | |repeat split; assumption|exact Hnext].
  - intros s1 i Hs1. exact Hs1.
  - intros s1 Hs1. exact Hs1.
  - intros s1 bo1 w1 e1 s2 bo2 w2 (He & _) Hne. congruence.
  - intros s1 bo1 w1 e1 s2 bo2 w2 (He & Hk & Hn) Hres.
    apply resolveCurrentLock_keeps in Hres as (-> & _ & -> & -> & _).
    repeat split; assumption.
Qed.

Lemma Next_loop_returns_at_eof g : forall n s bo w,
  eof s = true -> (length (cache s) - S (idx s) < n)%nat ->
  exists r, Next_loop g n s bo w = Returns r.
Proof.
  induction n as [|n IH]; intros s bo w Heof Hn; [lia|].
  simpl. rewrite Heof.
  destruct (Nat.leb_spec (length (cache s)) (S (idx s))); [eauto|].
  unfold Next_entry, Trace.
  destruct (resolveCurrentLock (set_idx s (S (idx s))) bo w)
    as [[[[[err|] s1] bo1] w1]| |] eqn:Hres; [eauto| |exfalso..].
  - pose proof (resolveCurrentLock_keeps _ _ _ _ _ _ _ Hres)
      as (_ & Hidx & Heof1 & _ & _).
    pose proof (resolveCurrentLock_config _ _ _ _ _ _ _ Hres)
      as (_ & _ & Hlen).
    simpl in Hidx, Heof1, Hlen.
    assert (is_Some (cache s1 !! idx s1)) as [p Hp]
        by (apply lookup_lt_is_Some; lia).
    unfold Value. rewrite Hp.
    destruct (valid s1).
    + destruct (length (pb.Value p) =? 0)%nat; [|eauto].
      apply IH; [congruence|lia].
    + simpl. apply IH; [congruence|lia].
  - unfold resolveCurrentLock in Hres. simpl in Hres.
    assert (is_Some (cache s !! S (idx s))) as [p Hp]
        by (apply lookup_lt_is_Some; lia).
    rewrite Hp in Hres.
    destruct (pb.Error p); [|discriminate].
    destruct (snapshot_get _ _ bo w) as [[[?|?] ?] ?]; discriminate.
  - unfold resolveCurrentLock in Hres. simpl in Hres.
    assert (is_Some (cache s !! S (idx s))) as [p Hp]
        by (apply lookup_lt_is_Some; lia).
    rewrite Hp in Hres.
    destruct (pb.Error p); [|discriminate].
    destruct (snapshot_get _ _ bo w) as [[[?|?] ?] ?]; discriminate.
Qed.

(** X5.  Once the data has ended, [Next] returns: it needs no more turns
    of its loop than there are entries left in the page, and one turn when
    none is left. *)
Theorem Next_returns_at_eof fuel s w :
  eof s = true -> (0 < fuel)%nat ->
  (length (cache s) - idx s <= fuel)%nat ->
  exists e s' w', Next fuel s w = Returns (e, s', w').
Proof.
  intros Heof Hpos Hfuel. unfold Next.
  destruct (valid s); simpl; [|eauto].
  destruct (Next_loop_returns_at_eof fuel fuel s
              (NewBackoffer scannerNextMaxBackoff) w Heof)
    as [[[e s'] w'] Hloop]; [lia|eauto].
Qed.

Lemma Next_loop_serves g j : forall n s bo w,
  valid s = true -> (idx s < j)%nat ->
  (forall i, (idx s < i < j)%nat -> tombstone_at s i) ->
  value_at s j -> (j - idx s <= n)%nat ->
  Next_loop g n s bo w = Returns (None, set_idx s j, w).
Proof.
  induction n as [|n IH]; intros s bo w Hv Hlt Htomb Hval Hn; [lia|].
  simpl.
  assert (j < length (cache s))%nat as Hj
      by (destruct Hval as (p & Hp & _); eapply lookup_lt_Some, Hp).
  destruct (Nat.leb_spec (length (cache s)) (S (idx s))); [lia|].
  unfold Next_entry, resolveCurrentLock, Value. simpl.
  destruct (decide (S (idx s) = j)) as [<-|Hne].
  - destruct Hval as (p & Hp & Herr & Hne). rewrite Hp, Herr. simpl.
    rewrite Hv, Hp.
    destruct (pb.Value p); [contradiction|reflexivity].
  - destruct (Htomb (S (idx s))) as (p & Hp & Herr & Hempty); [lia|].
    rewrite Hp, Herr. simpl. rewrite Hv, Hp, Hempty. simpl.
    apply (IH (set_idx s (S (idx s)))); simpl;
      [exact Hv|lia| |exact Hval|lia].
    intros i Hi. apply Htomb. lia.
Qed.

(** X6.  While the page holds an entry with a value after the cursor,
    [Next] is served from the page: it passes the deleted keys in between,
    stops on the first entry with a value, and neither changes anything
    else in the Scanner nor calls the store. *)
Theorem Next_serves_from_page fuel s w j :
  valid s = true -> (idx s < j)%nat ->
  (forall i, (idx s < i < j)%nat -> tombstone_at s i) ->
  value_at s j -> (j - idx s <= fuel)%nat ->
  Next fuel s w = Returns (None, set_idx s j, w).
Proof.
  intros Hv Hlt Htomb Hval Hfuel. unfold Next. rewrite Hv. simpl.
  apply Next_loop_serves; assumption.
Qed.

(** X7.  An entry is resolved once: after [resolveCurrentLock] has
    succeeded, calling it again on the same entry reads nothing and
    changes nothing. *)
Theorem resolve_once s bo w s1 bo1 w1 bo' w' :
  resolveCurrentLock s bo w = Returns (None, s1, bo1, w1) ->
  resolveCurrentLock s1 bo' w' = Returns (None, s1, bo', w').
Proof.
  unfold resolveCurrentLock, Trace.
  destruct (cache s !! idx s) as [current|] eqn:Hcur; [|discriminate].
  destruct (pb.Error current) eqn:Herr.
  - destruct (snapshot_get _ _ bo w) as [[[err|val] bo2] w2]; intros Hres;
      simplify_eq. simpl.
    rewrite list_lookup_insert_eq by (eapply lookup_lt_Some, Hcur).
    reflexivity.
  - intros Hres. simplify_eq. rewrite Hcur, Herr. reflexivity.
Qed.

End Keeps.

(** ** Index safety *)

Section Safety.
Context `{C : Collaborators}.

(** The turn of the loop of [getData] that ends a successful fetch. *)
Lemma getData_success_turn g : forall s bo w s1 bo1 w1,
  getData g s bo w = Returns (None, s1, bo1, w1) ->
  exists bo0 w0 loc body kvPairs,
    receives s bo0 w0 loc body bo1 w1
    /\ rewriteLockKeys (pb.Pairs body) = inr kvPairs
    /\ install s loc kvPairs = Returns s1.
Proof.
  induction g as [|g IH]; intros s bo w s1 bo1 w1 Hget; [discriminate|].
  simpl in Hget. unfold Trace in Hget.
  destruct (LocateKey (nextStartKey s) bo w)
    as [[[err|loc] bo0] w0] eqn:Hloc; [discriminate|].
  destruct (SendReq (scanRequest s) (Region loc) ReadTimeoutMedium bo0 w0)
    as [[[err|resp] bo2] w2] eqn:Hsend; [discriminate|].
  destruct (GetRegionError resp) as [[regionErr|] [err|]] eqn:Hre;
    try discriminate.
  - destruct (Backoff _ _ bo2 w2) as [[[err|] bo3] w3]; [discriminate|].
    eapply IH, Hget.
  - destruct (tikvrpc.resp_Scan resp) as [body|] eqn:Hbody; [|discriminate].
    destruct (CheckVisibility (startTS s) w2) eqn:Hvis; [discriminate|].
    destruct (rewriteLockKeys (pb.Pairs body)) as [err|kvPairs] eqn:Hrw;
      [discriminate|].
    destruct (install s loc kvPairs) as [s2| |] eqn:Hin; try discriminate.
    simplify_eq. exists bo, w, loc, body, kvPairs.
    split; [|split; [exact Hrw|exact Hin]].
    exists bo0, w0, resp. repeat split; assumption.
Qed.

Lemma getData_no_panic g : forall s bo w,
  0 < batchSize s -> getData g s bo w <> Panics.
Proof.
  induction g as [|g IH]; intros s bo w Hpos; [discriminate|].
  simpl. unfold Trace.
  destruct (LocateKey (nextStartKey s) bo w) as [[[err|loc] bo0] w0];
    [discriminate|].
  destruct (SendReq (scanRequest s) (Region loc) ReadTimeoutMedium bo0 w0)
    as [[[err|resp] bo2] w2]; [discriminate|].
  destruct (GetRegionError resp) as [[regionErr|] [err|]]; try discriminate.
  - destruct (Backoff _ _ bo2 w2) as [[[err|] bo3] w3]; [discriminate|].
    apply IH, Hpos.
  - destruct (tikvrpc.resp_Scan resp) as [body|]; [|discriminate].
    destruct (CheckVisibility (startTS s) w2); [discriminate|].
    destruct (rewriteLockKeys (pb.Pairs body)) as [err|kvPairs];
      [discriminate|].
    destruct (install_positive s loc kvPairs Hpos) as [s' ->]. discriminate.
Qed.

Lemma Next_entry_no_panic k s bo w :
  in_page s ->
  (forall s1 bo1 w1, batchSize s1 = batchSize s -> k s1 bo1 w1 <> Panics) ->
  Next_entry k s bo w <> Panics.
Proof.
  unfold in_page. intros Hin Hk. unfold Next_entry, Trace.
  destruct (resolveCurrentLock s bo w) as [[[[[err|] s1] bo1] w1]| |]
    eqn:Hres; try discriminate.
  - pose proof (resolveCurrentLock_keeps _ _ _ _ _ _ _ Hres)
      as (_ & Hidx & _).
    pose proof (resolveCurrentLock_config _ _ _ _ _ _ _ Hres)
      as (_ & Hb & Hlen).
    assert (is_Some (cache s1 !! idx s1)) as [p Hp]
        by (apply lookup_lt_is_Some; lia).
    unfold Value. rewrite Hp.
    destruct (valid s1); simpl.
    + destruct (length (pb.Value p) =? 0)%nat; [apply Hk, Hb|discriminate].
    + apply Hk, Hb.
  - unfold resolveCurrentLock in Hres.
    assert (is_Some (cache s !! idx s)) as [p Hp]
        by (apply lookup_lt_is_Some; lia).
    rewrite Hp in Hres. destruct (pb.Error p); [|discriminate].
    destruct (snapshot_get _ _ bo w) as [[[?|?] ?] ?]; discriminate.
Qed.

Lemma Next_loop_no_panic g : forall n s bo w,
  0 < batchSize s -> Next_loop g n s bo w <> Panics.
Proof.
  induction n as [|n IH]; intros s bo w Hpos; [discriminate|].
  simpl. unfold Trace.
  destruct (Nat.leb_spec (length (cache s)) (S (idx s))) as [Hend|Hin].
  - destruct (eof s); [discriminate|].
    destruct (getData g (set_idx s (S (idx s))) bo w)
      as [[[[[err|] s1] bo1] w1]| |] eqn:Hget; try discriminate.
    + pose proof (getData_config _ _ _ _ _ _ _ _ Hget) as (_ & Hb & _).
      simpl in Hb.
      destruct (Nat.leb_spec (length (cache s1)) (idx s1)) as [Hend1|Hin1].
      * apply IH. lia.
      * apply Next_entry_no_panic; [exact Hin1|].
        intros s2 bo2 w2 Hb2. apply IH. lia.
    + exfalso. eapply getData_no_panic; [|exact Hget]. exact Hpos.
  - apply Next_entry_no_panic; [exact Hin|].
    intros s2 bo2 w2 Hb2. apply IH. simpl in Hb2. lia.
Qed.

(** X8.  With a positive page size no call indexes the page out of range:
    [Next] never panics, whatever the store answers and in whatever state
    the Scanner is, and neither does [newScanner] when the default page
    size is positive. *)
Theorem Next_index_safe :
  (forall fuel s w, 0 < batchSize s -> Next fuel s w <> Panics)
  /\
  (forall fuel snapshot startKey batchSize w,
     0 < scanBatchSize ->
     newScanner fuel snapshot startKey batchSize w <> Panics).
Proof.
  assert (forall fuel s w, 0 < batchSize s -> Next fuel s w <> Panics)
    as Hnext.
  { intros fuel s w Hpos. unfold Next.
    destruct (valid s); simpl; [|discriminate].
    apply Next_loop_no_panic, Hpos. }
  split; [exact Hnext|].
  intros fuel snapshot startKey batchSize w Hdef. rewrite newScanner_fresh.
  destruct (Next fuel (fresh snapshot startKey batchSize) w)
    as [[[err s1] w1]| |] eqn:Hn.
  - destruct (IsErrNotFound err); discriminate.
  - exfalso. eapply Hnext; [|exact Hn]. simpl.
    destruct (Z.leb_spec batchSize 1); lia.
  - discriminate.
Qed.

(** X9.  With a page size that is not positive, a response without pairs
    makes the fetch panic: the page counts as full, and it has no last
    pair to continue from. *)
Theorem empty_full_page_panics fuel s bo w loc body bo' w' :
  receives s bo w loc body bo' w' ->
  pb.Pairs body = [] -> batchSize s <= 0 ->
  getData (S fuel) s bo w = Panics.
Proof.
  intros Hrecv Hnil Hb.
  rewrite (getData_receives fuel _ _ _ _ _ _ _ Hrecv), Hnil. simpl.
  unfold install. simpl.
  destruct (Z.ltb_spec (Z.of_nat 0) (batchSize s)); [lia|reflexivity].
Qed.

(** X10.  The limit of a scan request is the page size cut to 32 bits.
    With a page size of 2^32 or more, every response that holds no more
    pairs than the limit of its request counts as a short page: the next
    page starts at the end key of the region, whatever the region still
    holds. *)
Theorem wide_page_size_is_short fuel s bo w loc body bo' w' s1 bo1 w1 :
  2 ^ 32 <= batchSize s ->
  receives s bo w loc body bo' w' ->
  Z.of_nat (length (pb.Pairs body))
    <= pb.Limit (tikvrpc.Scan (scanRequest s)) ->
  getData (S fuel) s bo w = Returns (None, s1, bo1, w1) ->
  nextStartKey s1 = EndKey loc
  /\ Z.of_nat (length (cache s1)) < 2 ^ 32.
Proof.
  intros Hwide Hrecv Hlimit Hget. simpl in Hlimit.
  rewrite (getData_receives fuel _ _ _ _ _ _ _ Hrecv) in Hget.
  destruct (rewriteLockKeys (pb.Pairs body)) as [err|kvPairs] eqn:Hrw;
    [discriminate|].
  apply rewriteLockKeys_length in Hrw.
  pose proof (Z.mod_pos_bound (batchSize s) (2 ^ 32) ltac:(lia)) as Hmod.
  destruct (install s loc kvPairs) as [s2| |] eqn:Hin; try discriminate.
  simplify_eq. pose proof (install_cache _ _ _ _ Hin) as (Hc & _).
  rewrite Hc. split; [|lia].
  unfold install in Hin. simpl in Hin.
  destruct (Z.ltb_spec (Z.of_nat (length kvPairs)) (batchSize s)); [|lia].
  injection Hin as <-. destruct (length (EndKey loc) =? 0)%nat; reflexivity.
Qed.

End Safety.

(** ** The range of the keys read *)

Section Range.
Context `{C : Collaborators}.

Lemma key_le_trans (a b c : kv.Key) : kv.le a b -> kv.le b c -> kv.le a c.
Proof.
  intros [-> | Hab]%le_cases Hbc; [exact Hbc|].
  apply lt_le. eapply lt_le_trans; eassumption.
Qed.

Lemma reach_later lo s i j : (i <= j)%nat -> reach lo s i -> reach lo s j.
Proof.
  intros Hle [Hall Hnext]. split; [|exact Hnext].
  replace j with (i + (j - i))%nat by lia.
  rewrite <- drop_drop. apply Forall_drop, Hall.
Qed.

Lemma install_reach lo s loc kvPairs s1 :
  page_ok (nextStartKey s) loc (pb.Key <$> kvPairs) ->
  kv.le lo (nextStartKey s) ->
  install s loc kvPairs = Returns s1 ->
  reach lo s1 0.
Proof.
  intros (_ & Hge & Hend) Hlo Hin.
  assert (Forall (kv.le lo) (pb.Key <$> kvPairs)) as Hall.
  { eapply Forall_impl; [exact Hge|]. intros k. apply key_le_trans, Hlo. }
  pose proof (install_cache _ _ _ _ Hin) as (Hc & _).
  split; [unfold keys; rewrite Hc, drop_0; exact Hall|].
  unfold install in Hin. simpl in Hin.
  destruct (Z.of_nat (length kvPairs) <? batchSize s).
  - injection Hin as <-.
    destruct (EndKey loc) as [|x k] eqn:Hk; simpl; [discriminate|].
    intros _. destruct Hend as [Hlt _]; [discriminate|].
    apply lt_le. eapply le_lt_trans; eassumption.
  - destruct (last kvPairs) as [lastPair|] eqn:Hlast; [|discriminate].
    injection Hin as <-. simpl. intros _.
    apply last_Some in Hlast as [init ->].
    rewrite fmap_app, Forall_app in Hall. destruct Hall as [_ Hall].
    simpl in Hall. rewrite Forall_singleton in Hall.
    apply lt_le. eapply le_lt_trans; [exact Hall|apply lt_Next].
Qed.

Section InOrder.
Hypothesis Hinstalled : installed_in_order.

Lemma getData_reach lo g s bo w s1 bo1 w1 :
  kv.le lo (nextStartKey s) ->
  getData g s bo w = Returns (None, s1, bo1, w1) ->
  reach lo s1 0 /\ idx s1 = 0%nat.
Proof.
  intros Hlo Hget.
  apply getData_success_turn in Hget
    as (bo0 & w0 & loc & body & kvPairs & Hrecv & Hrw & Hin).
  pose proof (Hinstalled _ _ _ _ _ _ _ _ Hrecv Hrw) as Hpage.
  split; [eapply install_reach; eassumption|].
  apply install_cache in Hin. tauto.
Qed.

Lemma Next_entry_reach lo k :
  (forall s bo w e s' w',
     reach lo s (S (idx s)) -> k s bo w = Returns (e, s', w') ->
     reach lo s' (idx s')) ->
  forall s bo w e s' w',
    reach lo s (idx s) -> Next_entry k s bo w = Returns (e, s', w') ->
    reach lo s' (idx s').
Proof.
  intros Hk s bo w e s' w' Hreach Hent. unfold Next_entry, Trace in Hent.
  destruct (resolveCurrentLock s bo w) as [[[[[err|] s1] bo1] w1]| |]
    eqn:Hres; try discriminate;
    apply resolveCurrentLock_keeps in Hres as (Hkeys & Hidx & Heof & Hnsk & _);
    assert (reach lo s1 (idx s1)) as Hreach1
      by (unfold reach; rewrite Hkeys, Hidx, Heof, Hnsk; exact Hreach).
  - simplify_eq. exact Hreach1.
  - destruct (Value s1) as [v| |]; try discriminate.
    destruct (length v =? 0)%nat.
    + eapply Hk; [|exact Hent]. eapply reach_later; [|exact Hreach1]. lia.
    + simplify_eq. exact Hreach1.
Qed.

Lemma Next_loop_reach lo g : forall n s bo w e s' w',
  reach lo s (S (idx s)) -> Next_loop g n s bo w = Returns (e, s', w') ->
  reach lo s' (idx s').
Proof.
  induction n as [|n IH]; intros s bo w e s' w' Hreach Hloop;
    [discriminate|].
  simpl in Hloop. unfold Trace in Hloop.
  assert (reach lo (set_idx s (S (idx s))) (idx (set_idx s (S (idx s)))))
    as Hreach0 by exact Hreach.
  destruct (length (cache s) <=? S (idx s))%nat.
  - destruct (eof s) eqn:Heof.
    + simplify_eq. exact Hreach0.
    + destruct (getData g (set_idx s (S (idx s))) bo w)
        as [[[[[err|] s1] bo1] w1]| |] eqn:Hget; try discriminate.
      * apply getData_error_keeps in Hget. simplify_eq. exact Hreach0.
      * apply (getData_reach lo) in Hget as (Hreach1 & Hidx);
          [|destruct Hreach as (_ & Hnext); apply Hnext, Heof].
        destruct (length (cache s1) <=? idx s1)%nat.
        -- eapply IH; [|exact Hloop].
           eapply reach_later; [|exact Hreach1]. lia.
        -- eapply Next_entry_reach; [exact IH| |exact Hloop].
           rewrite Hidx. exact Hreach1.
  - eapply Next_entry_reach; [exact IH|exact Hreach0|exact Hloop].
Qed.

Lemma Next_reach lo fuel s w e s' w' :
  reach lo s (idx s) -> Next fuel s w = Returns (e, s', w') ->
  reach lo s' (idx s').
Proof.
  intros Hreach Hnext. unfold Next in Hnext.
  destruct (valid s); simpl in Hnext; [|simplify_eq; exact Hreach].
  eapply Next_loop_reach; [|exact Hnext].
  eapply reach_later; [|exact Hreach]. lia.
Qed.

Lemma drain_reach lo fuel : forall calls s w,
  reach lo s (idx s) -> Forall (kv.le lo) (drain calls fuel s w).
Proof.
  induction calls as [|calls IH]; intros s w Hreach; simpl; [constructor|].
  unfold Valid, Key. destruct (valid s); [|constructor].
  destruct (cache s !! idx s) as [p|] eqn:Hp; [|constructor].
  constructor.
  - destruct Hreach as [Hall _]. rewrite Forall_lookup in Hall.
    apply (Hall 0%nat). rewrite lookup_drop, Nat.add_0_r. unfold keys.
    rewrite list_lookup_fmap, Hp. reflexivity.
  - destruct (Next fuel s w) as [[[[err|] s'] w']| |] eqn:Hnext;
      try constructor.
    apply IH. eapply Next_reach; eassumption.
Qed.

(** X11.  When the pages are installed in order, no key read from a fresh
    Scanner is below the start key the Scanner was built with. *)
Theorem keys_from_start_key calls fuel snapshot startKey batchSize w :
  Forall (kv.le startKey) (scan calls fuel snapshot startKey batchSize w).
Proof.
  unfold scan. rewrite newScanner_fresh.
  destruct (Next fuel (fresh snapshot startKey batchSize) w)
    as [[[err s] w']| |] eqn:Hnext; try constructor.
  assert (reach startKey s (idx s)) as Hreach.
  { eapply Next_reach; [|exact Hnext]. split; simpl.
    - constructor.
    - intros _. apply le_refl. }
  destruct (IsErrNotFound err).
  - apply drain_reach, Hreach.
  - unfold Trace. destruct err; [constructor|]. apply drain_reach, Hreach.
Qed.

(** X12.  When the pages are installed in order, a fetch that succeeds
    and leaves data to read moves the start of the next page strictly
    forward. *)
Theorem fetch_moves_forward g s bo w s1 bo1 w1 :
  getData g s bo w = Returns (None, s1, bo1, w1) ->
  eof s1 = false ->
  kv.lt (nextStartKey s) (nextStartKey s1).
Proof.
  intros Hget Heof.
  apply getData_success_turn in Hget
    as (bo0 & w0 & loc & body & kvPairs & Hrecv & Hrw & Hin).
  pose proof (Hinstalled _ _ _ _ _ _ _ _ Hrecv Hrw) as (_ & Hge & Hend).
  unfold install in Hin. simpl in Hin.
  destruct (Z.of_nat (length kvPairs) <? batchSize s).
  - injection Hin as <-.
    destruct (EndKey loc) as [|x k] eqn:Hk; simpl in Heof |- *;
      [discriminate|].
    apply Hend. discriminate.
  - destruct (last kvPairs) as [lastPair|] eqn:Hlast; [|discriminate].
    injection Hin as <-. simpl.
    apply last_Some in Hlast as [init ->].
    rewrite fmap_app, Forall_app in Hge. destruct Hge as [_ Hge].
    simpl in Hge. rewrite Forall_singleton in Hge.
    eapply le_lt_trans; [exact Hge|apply lt_Next].
Qed.

End InOrder.

Lemma Next_live fuel s w s' w' :
  Next fuel s w = Returns (None, s', w') -> live s'.
Proof.
  intros Hnext. unfold Next in Hnext.
  destruct (valid s); simpl in Hnext; [|discriminate].
  refine (Next_loop_exits
            (fun r => match r.1.1 with None => live r.1.2 | Some _ => True end)
            fuel _ _ fuel s (NewBackoffer scannerNextMaxBackoff) w
            (None, s', w') Hnext).
  - intros [e|] s0 w0 Hv; simpl; [exact I|]. left. exact Hv.
  - intros s0 w0 v Hv Hne. simpl. right. exists v. split; assumption.
Qed.

Lemma drain_pairs_live fuel : forall calls s w,
  live s -> Forall (fun kvp => kvp.2 <> []) (drain_pairs calls fuel s w).
Proof.
  induction calls as [|calls IH]; intros s w Hlive; simpl; [constructor|].
  destruct (Valid s) eqn:Hv; [|constructor].
  destruct (Key s) as [k| |]; try constructor.
  destruct (Value s) as [v| |] eqn:Hval; try constructor.
  - destruct Hlive as [Hclosed|(v' & Hv' & Hne)]; [congruence|].
    simpl. congruence.
  - destruct (Next fuel s w) as [[[[err|] s'] w']| |] eqn:Hnext;
      try constructor.
    apply IH. eapply Next_live, Hnext.
Qed.

(** X13.  No pair read from a fresh Scanner has an empty value: deleted
    keys are passed by construction as well as by every later advance. *)
Theorem values_are_not_empty calls fuel snapshot startKey batchSize w :
  Forall (fun kvp => kvp.2 <> [])
         (scan_pairs calls fuel snapshot startKey batchSize w).
Proof.
  unfold scan_pairs. rewrite newScanner_fresh.
  destruct (Next fuel (fresh snapshot startKey batchSize) w)
    as [[[err s] w']| |] eqn:Hnext; try constructor.
  assert (live s) as Hlive.
  { destruct err as [e|]; [|eapply Next_live, Hnext].
    left. eapply Next_error_closes; [|exact Hnext]. reflexivity. }
  destruct (IsErrNotFound err).
  - apply drain_pairs_live, Hlive.
  - unfold Trace. destruct err; [constructor|].
    apply drain_pairs_live, Hlive.
Qed.

Lemma Next_loop_empty_page g n s bo w loc body bo' w' :
  (length (cache s) <= S (idx s))%nat -> eof s = false ->
  0 < batchSize s ->
  receives (set_idx s (S (idx s))) bo w loc body bo' w' ->
  pb.Pairs body = [] -> EndKey loc = [] ->
  exists s',
    Next_loop (S g) (S (S n)) s bo w = Returns (None, s', w')
    /\ valid s' = false /\ eof s' = true /\ cache s' = [].
Proof.
  intros Hlen Heof Hpos Hrecv Hnil Hend.
  assert (getData (S g) (set_idx s (S (idx s))) bo w
          = Returns (None,
                     set_eof (set_nextStartKey
                                (set_idx (set_cache (set_idx s (S (idx s))) [])
                                         0) []) true,
                     bo', w')) as Hget.
  { rewrite (getData_receives g _ _ _ _ _ _ _ Hrecv), Hnil. simpl.
    unfold install. simpl. rewrite Hend. simpl.
    destruct (Z.ltb_spec (Z.of_nat 0) (batchSize s)) as [_|Hle];
      [reflexivity|simpl in Hle; lia]. }
  remember (S g) as g' eqn:Hg. remember (S n) as n' eqn:Hn. simpl.
  destruct (Nat.leb_spec (length (cache s)) (S (idx s))); [|lia].
  rewrite Heof, Hget. simpl. rewrite Hn. simpl.
  eexists. split; [reflexivity|]. repeat split.
Qed.

(** X14.  Scanning a keyspace that holds nothing from the start key on:
    when the first fetch brings no pair from a region without an end key,
    [newScanner] returns without error a Scanner that is not valid. *)
Theorem empty_scan fuel snapshot startKey batchSize w loc body bo' w' :
  receives (set_idx (fresh snapshot startKey batchSize) 1)
           (NewBackoffer scannerNextMaxBackoff) w loc body bo' w' ->
  pb.Pairs body = [] -> EndKey loc = [] ->
  0 < scanBatchSize -> (2 <= fuel)%nat ->
  exists s',
    newScanner fuel snapshot startKey batchSize w = Returns (s', None, w')
    /\ Valid s' = false /\ eof s' = true /\ cache s' = [].
Proof.
  intros Hrecv Hnil Hend Hdef Hfuel. rewrite newScanner_fresh.
  destruct fuel as [|[|fuel]]; try lia.
  unfold Next.
  change (negb (valid (fresh snapshot startKey batchSize))) with false.
  cbv iota.
  destruct (Next_loop_empty_page (S fuel) fuel
              (fresh snapshot startKey batchSize)
              (NewBackoffer scannerNextMaxBackoff) w loc body bo' w')
    as (s' & Hloop & Hv & Heof & Hcache);
    [simpl; lia|reflexivity| |exact Hrecv|exact Hnil|exact Hend|].
  - simpl. destruct (Z.leb_spec batchSize 1); lia.
  - rewrite Hloop. exists s'.
    split; [destruct (IsErrNotFound None); reflexivity|].
    repeat split; assumption.
Qed.

End Range.

(** ** More runs on the cluster *)

Section MoreRuns.
Import Cluster.

Lemma Next_keeps_snapshot_witness :
  match @Next _ (env letters) 4 on_b [] with
  | Returns (e, s', w') =>
    snapshot s' = snap 10 /\ batchSize s' = 3 /\ startTS s' = 10
  | _ => False
  end.
Proof.
  destruct (@Next _ (env letters) 4 on_b []) as [[[e s'] w']| |] eqn:Hnext;
    try (vm_compute in Hnext; discriminate).
  exact (Next_keeps_snapshot (C := env letters) 4 on_b [] e s' w' Hnext).
Defined.

Lemma newScanner_page_size_witness :
  match @newScanner _ (env letters) 4 (snap 10) [] 0 [] with
  | Returns (s, e, w') =>
    snapshot s = snap 10 /\ batchSize s = 256 /\ 1 < batchSize s
  | _ => False
  end.
Proof.
  destruct (@newScanner _ (env letters) 4 (snap 10) [] 0 [])
    as [[[s e] w']| |] eqn:Hnew; try (vm_compute in Hnew; discriminate).
  destruct (newScanner_page_size (C := env letters) 4 (snap 10) [] 0 []
              s e w' Hnew) as (Hsn & Hb & Hbig).
  split; [exact Hsn|]. split; [exact Hb|]. apply Hbig. reflexivity.
Defined.

Lemma Next_valid_in_page_witness :
  match @Next _ (env letters) 4 on_b [] with
  | Returns (e, s', w') =>
    Valid s' = true /\ e = None /\ in_page s'
    /\ exists p, cache s' !! idx s' = Some p
                /\ Key s' = Returns (pb.Key p)
                /\ Value s' = Returns (pb.Value p) /\ pb.Value p <> []
  | _ => False
  end.
Proof.
  destruct (@Next _ (env letters) 4 on_b []) as [[[e s'] w']| |] eqn:Hnext;
    try (vm_compute in Hnext; discriminate).
  assert (Valid s' = true) as Hv
      by (vm_compute in Hnext; injection Hnext as _ <- _; reflexivity).
  split; [exact Hv|].
  exact (Next_valid_in_page (C := env letters) 4 on_b [] e s' w' Hnext Hv).
Defined.

Lemma eof_is_final_witness :
  let at_end := set_eof on_c true in
  match @Next _ (env letters) 4 at_end [] with
  | Returns (_, s', _) =>
    eof s' = true /\ keys s' = [c; d; e]
    /\ nextStartKey s' = nextStartKey at_end
  | _ => False
  end.
Proof.
  intros at_end.
  destruct (@Next _ (env letters) 4 at_end []) as [[[e0 s'] w']| |] eqn:Hnext;
    try (vm_compute in Hnext; discriminate).
  exact (eof_is_final (C := env letters) 4 at_end [] e0 s' w' Hnext eq_refl).
Defined.

Lemma Next_returns_at_eof_witness :
  let at_end := set_eof on_c true in
  eof at_end = true /\ (length (cache at_end) - idx at_end <= 3)%nat
  /\ exists e s' w', @Next _ (env letters) 3 at_end [] = Returns (e, s', w').
Proof.
  intros at_end. split; [reflexivity|]. split; [simpl; lia|].
  apply (Next_returns_at_eof (C := env letters) 3 at_end [] eq_refl);
    simpl; lia.
Defined.

Lemma Next_serves_from_page_witness :
  (* the page holds [a], the deleted [c] and [e]; the store is down *)
  let page := [ @pb.mkKvPair types None a [x41];
                @pb.mkKvPair types None c [];
                @pb.mkKvPair types None e [x45] ] in
  let on_a := mkScanner (snap 10) 3 true page 0%nat [] true in
  @Next _ (env letters) 2 on_a [SendFails "down"; ReadFails "down"]
  = Returns (None, set_idx on_a 2, [SendFails "down"; ReadFails "down"]).
Proof.
  intros page on_a.
  apply (Next_serves_from_page (C := env letters) 2 on_a _ 2%nat).
  - reflexivity.
  - simpl. lia.
  - intros i Hi. simpl in Hi. assert (i = 1%nat) as -> by lia.
    eexists. repeat split.
  - eexists. split; [reflexivity|]. split; [reflexivity|]. discriminate.
  - simpl. lia.
Defined.

Lemma resolve_once_witness :
  match @resolveCurrentLock _ (env letters) on_d 3%nat [] with
  | Returns (None, s1, _, _) =>
    @resolveCurrentLock _ (env letters) s1 0%nat [ReadFails "down"]
    = Returns (None, s1, 0%nat, [ReadFails "down"])
  | _ => False
  end.
Proof.
  destruct (@resolveCurrentLock _ (env letters) on_d 3%nat [])
    as [[[[[err|] s1] bo1] w1]| |] eqn:Hres;
    try (vm_compute in Hres; discriminate).
  exact (resolve_once (C := env letters) on_d 3%nat [] s1 bo1 w1
           0%nat [ReadFails "down"] Hres).
Defined.

Lemma Next_index_safe_witness :
  @Next _ (env letters) 4 on_b [] <> Panics
  /\ @newScanner _ (env letters) 4 (snap 10) [] 0 [NoBody] <> Panics.
Proof.
  split.
  - apply (proj1 (Next_index_safe (C := env letters))). reflexivity.
  - apply (proj2 (Next_index_safe (C := env letters))). reflexivity.
Defined.

Lemma empty_full_page_panics_witness :
  @getData _ (env letters) 1 (due (e ++ [x00]) 0) 3%nat [] = Panics.
Proof.
  apply (empty_full_page_panics (C := env letters) 0 (due (e ++ [x00]) 0)
           3%nat [] _ _ 3%nat []
           (cluster_receives_now letters (due (e ++ [x00]) 0) 3%nat
              ltac:(simpl; lia))).
  - reflexivity.
  - simpl. lia.
Defined.

Lemma wide_page_size_is_short_witness :
  (* a page size of 2^32 + 1 asks for one pair: [b] is passed over *)
  match @getData _ (env letters) 1 (due [] (2 ^ 32 + 1)) 3%nat [] with
  | Returns (None, s1, _, _) =>
    keys s1 = [a] /\ nextStartKey s1 = c
    /\ Z.of_nat (length (cache s1)) < 2 ^ 32
  | _ => False
  end.
Proof.
  destruct (@getData _ (env letters) 1 (due [] (2 ^ 32 + 1)) 3%nat [])
    as [[[[[err|] s1] bo1] w1]| |] eqn:Hget;
    try (vm_compute in Hget; discriminate).
  split; [vm_compute in Hget; injection Hget as <- _ _; reflexivity|].
  refine (wide_page_size_is_short (C := env letters) 0
            (due [] (2 ^ 32 + 1)) 3%nat [] _ _ 3%nat [] s1 bo1 w1 _
            (cluster_receives_now letters (due [] (2 ^ 32 + 1)) 3%nat
               ltac:(simpl; lia)) _ Hget).
  - simpl. lia.
  - vm_compute. discriminate.
Defined.

Lemma keys_from_start_key_witness :
  @installed_in_order _ (env letters)
  /\ @scan _ (env letters) 6 6 (snap 10) c 3 [] = [d; e]
  /\ Forall (kv.le c) (@scan _ (env letters) 6 6 (snap 10) c 3 []).
Proof.
  split; [exact letters_installed_in_order|].
  split; [vm_compute; reflexivity|].
  exact (keys_from_start_key (C := env letters) letters_installed_in_order
           6 6 (snap 10) c 3 []).
Defined.

Lemma fetch_moves_forward_witness :
  @installed_in_order _ (env letters)
  /\ match @getData _ (env letters) 1 (due c 3) 3%nat [] with
     | Returns (None, s1, _, _) =>
       eof s1 = false /\ kv.lt c (nextStartKey s1)
     | _ => False
     end.
Proof.
  split; [exact letters_installed_in_order|].
  destruct (@getData _ (env letters) 1 (due c 3) 3%nat [])
    as [[[[[err|] s1] bo1] w1]| |] eqn:Hget;
    try (vm_compute in Hget; discriminate).
  assert (eof s1 = false) as Heof
      by (vm_compute in Hget; injection Hget as <- _ _; reflexivity).
  split; [exact Heof|].
  exact (fetch_moves_forward (C := env letters) letters_installed_in_order
           1 (due c 3) 3%nat [] s1 bo1 w1 Hget Heof).
Defined.

Lemma empty_scan_witness :
  (* nothing is left after [e] *)
  exists s',
    @newScanner _ (env letters) 2 (snap 10) (e ++ [x00]) 3 []
    = Returns (s', None, [])
    /\ Valid s' = false /\ eof s' = true /\ cache s' = [].
Proof.
  apply (empty_scan (C := env letters) 2 (snap 10) (e ++ [x00]) 3 [] _ _
           3%nat []
           (cluster_receives_now letters
              (set_idx (@fresh _ (env letters) (snap 10) (e ++ [x00]) 3) 1)
              3%nat ltac:(simpl; lia))).
  - reflexivity.
  - reflexivity.
  - reflexivity.
  - lia.
Defined.

End MoreRuns.
